(** * QueueScheduler: the delayed-job and stalled-job reconciliation loop

    A shallow embedding of [src/classes/queue-scheduler.ts] of bullmq and the
    properties of its control loop.

    Layout:
    - [Number]: the JavaScript numbers the scheduler computes with;
    - the instance state of a [QueueScheduler] and the events it emits;
    - a resumption monad for [async] methods: a method runs until its next
      [await], where the pending call and the instance state are visible to
      the rest of the program ([close()] may run there), and is resumed with
      the answer of the call;
    - the methods of the class, in the order of the source;
    - the properties. *)

From Stdlib Require Import ZArith QArith Qround List String Ascii Bool Lia.
Import ListNotations.

Set Implicit Arguments.

(* ================================================================== *)
(** ** JavaScript numbers *)

(** A [number] is [NaN], an infinity or a finite value.  Finite values are
    kept exact (a rational), so the rounding of IEEE doubles beyond 2^53 is
    not modelled: timestamps and intervals are milliseconds, far below that
    bound.  [-0] is not told apart from [0]: the scheduler only compares,
    subtracts and tests numbers for truthiness, and none of these does. *)
Module Number.

Inductive number : Type :=
| NaN
| NegInf
| Fin (q : Q)
| PosInf.

Definition of_Z (z : Z) : number := Fin (inject_Z z).

(** [Number.MAX_VALUE], the largest finite double. *)
Definition MAX_VALUE : number := of_Z (2 ^ 1024 - 2 ^ 971).

(** [a < b]; false as soon as one side is [NaN]. *)
Definition ltb (a b : number) : bool :=
  match a, b with
  | NaN, _ | _, NaN => false
  | _, NegInf => false
  | NegInf, _ => true
  | PosInf, _ => false
  | Fin _, PosInf => true
  | Fin x, Fin y => match x ?= y with Lt => true | _ => false end
  end.

(** [a <= b]; false as soon as one side is [NaN]. *)
Definition leb (a b : number) : bool :=
  match a, b with
  | NaN, _ | _, NaN => false
  | NegInf, _ => true
  | _, PosInf => true
  | Fin x, Fin y => Qle_bool x y
  | _, _ => false
  end.

(** [a - b]. *)
Definition sub (a b : number) : number :=
  match a, b with
  | NaN, _ | _, NaN => NaN
  | PosInf, PosInf | NegInf, NegInf => NaN
  | PosInf, _ => PosInf
  | NegInf, _ => NegInf
  | Fin _, PosInf => NegInf
  | Fin _, NegInf => PosInf
  | Fin x, Fin y => Fin (x - y)
  end.

(** [Math.min(a, b)] and [Math.max(a, b)]: [NaN] when an argument is. *)
Definition Math_min (a b : number) : number :=
  match a, b with
  | NaN, _ | _, NaN => NaN
  | _, _ => if ltb b a then b else a
  end.

Definition Math_max (a b : number) : number :=
  match a, b with
  | NaN, _ | _, NaN => NaN
  | _, _ => if ltb a b then b else a
  end.

(** [Math.round(a)]: the nearest integer, halves towards +infinity. *)
Definition Math_round (a : number) : number :=
  match a with
  | Fin q => of_Z (Qfloor (q + (1 # 2)))
  | _ => a
  end.

(** ToBoolean on a number, as in [if (x)] and [!x]. *)
Definition truthy (a : number) : bool :=
  match a with
  | NaN => false
  | Fin q => negb (Qeq_bool q 0)
  | _ => true
  end.

Definition is_NaN (a : number) : bool :=
  match a with NaN => true | _ => false end.

Definition is_finite (a : number) : bool :=
  match a with Fin _ => true | _ => false end.

(** *** parseInt *)

(** Leading white space skipped by [parseInt] (the ASCII part of it). *)
Definition isWhiteSpace (c : ascii) : bool :=
  let n := nat_of_ascii c in
  Nat.eqb n 32 || (Nat.leb 9 n && Nat.leb n 13).

Fixpoint trimStart (s : string) : string :=
  match s with
  | String c r => if isWhiteSpace c then trimStart r else s
  | EmptyString => s
  end.

(** The value of a character as a digit, for radices up to 36. *)
Definition digitValue (c : ascii) : option Z :=
  let n := Z.of_nat (nat_of_ascii c) in
  if (48 <=? n)%Z && (n <=? 57)%Z then Some (n - 48)%Z
  else if (97 <=? n)%Z && (n <=? 122)%Z then Some (n - 87)%Z
  else if (65 <=? n)%Z && (n <=? 90)%Z then Some (n - 55)%Z
  else None.

(** The value of the longest prefix of radix-[R] digits, [None] when the
    prefix is empty. *)
Fixpoint digits (R : Z) (s : string) (acc : option Z) : option Z :=
  match s with
  | String c r =>
      match digitValue c with
      | Some d =>
          if (d <? R)%Z
          then digits R r (Some (R * match acc with Some a => a | None => 0 end + d)%Z)
          else acc
      | None => acc
      end
  | EmptyString => acc
  end.

(** [parseInt(string)] without a radix argument: white space, a sign, a
    [0x] prefix that selects radix 16, then digits; [NaN] without a digit. *)
Definition parseInt_string (s : string) : number :=
  let s := trimStart s in
  let '(sign, s) :=
    match s with
    | String "-"%char r => ((-1)%Z, r)
    | String "+"%char r => (1%Z, r)
    | _ => (1%Z, s)
    end in
  let '(R, s) :=
    match s with
    | String "0"%char (String "x"%char r) => (16%Z, r)
    | String "0"%char (String "X"%char r) => (16%Z, r)
    | _ => (10%Z, s)
    end in
  match digits R s None with
  | Some z => of_Z (sign * z)
  | None => NaN
  end.

(** [parseInt(v)] where [v] may be [undefined]: the argument is first
    converted to a string. *)
Definition parseInt (v : option string) : number :=
  parseInt_string (match v with Some s => s | None => "undefined"%string end).

End Number.

Import Number.

(* ================================================================== *)
(** ** Instance state *)

Record Error : Type := mkError { message : string }.

(** The three event kinds of [QueueSchedulerListener], with the arguments
    passed to [emit]. *)
Inductive Event : Type :=
| error_event (error : Error)
| failed_event (jobId : string) (failedReason : Error) (prev : string)
| stalled_event (jobId : string) (prev : string).

(** The promise kept in [this.closing]: which shutdown produced it, and its
    identity. *)
Inductive shutdown : Type := by_disconnect | by_close.

Record Promise : Type := mkPromise { settles : shutdown; pid : nat }.

(** A position in the delay stream; [None] is [undefined]. *)
Definition cursor : Type := option string.

(** [StreamReadRaw]: per stream, its key and its entries; an entry is an id
    and a flat list of field names and values. *)
Definition StreamEntry : Type := (string * list string)%type.
Definition StreamReadRaw : Type := list (string * list StreamEntry).

(** The fields of a [QueueScheduler] the loop reads and writes.  [emitted]
    records the calls of [emit], oldest first (listeners are outside the
    model); [promises] counts the promises handed out by the connection. *)
Record QueueScheduler : Type := mkQueueScheduler {
  opts_stalledInterval : option number;
  keys_delay : string;
  nextTimestamp : number;
  isBlocked : bool;
  running : bool;
  closing : option Promise;
  emitted : list Event;
  promises : nat
}.

Definition set_nextTimestamp (v : number) (this : QueueScheduler) : QueueScheduler :=
  mkQueueScheduler (opts_stalledInterval this) (keys_delay this) v (isBlocked this)
    (running this) (closing this) (emitted this) (promises this).

Definition set_isBlocked (v : bool) (this : QueueScheduler) : QueueScheduler :=
  mkQueueScheduler (opts_stalledInterval this) (keys_delay this) (nextTimestamp this) v
    (running this) (closing this) (emitted this) (promises this).

Definition set_running (v : bool) (this : QueueScheduler) : QueueScheduler :=
  mkQueueScheduler (opts_stalledInterval this) (keys_delay this) (nextTimestamp this)
    (isBlocked this) v (closing this) (emitted this) (promises this).

Definition set_closing (v : option Promise) (this : QueueScheduler) : QueueScheduler :=
  mkQueueScheduler (opts_stalledInterval this) (keys_delay this) (nextTimestamp this)
    (isBlocked this) (running this) v (emitted this) (promises this).

Definition push_emitted (ev : Event) (this : QueueScheduler) : QueueScheduler :=
  mkQueueScheduler (opts_stalledInterval this) (keys_delay this) (nextTimestamp this)
    (isBlocked this) (running this) (closing this) (emitted this ++ [ev]) (promises this).

Definition is_set {A : Type} (v : option A) : bool :=
  match v with Some _ => true | None => false end.

(** ToNumber on a number that may be [undefined]. *)
Definition ToNumber (v : option number) : number :=
  match v with Some n => n | None => NaN end.

(** ToBoolean on a number that may be [undefined]. *)
Definition truthy_opt (v : option number) : bool :=
  match v with Some n => truthy n | None => false end.

(* ------------------------------------------------------------------ *)
(** *** Shutdown: [close()] *)

(** Modelled from the spec: [disconnect()] and [close()] of the base class
    [QueueBase], which is not among the sources.  Section 5 of the spec tells
    them apart as terminating the connection abruptly and a clean protocol
    close; each returns the promise of that shutdown. *)
Definition fresh_promise (how : shutdown) (this : QueueScheduler)
  : QueueScheduler * Promise :=
  (mkQueueScheduler (opts_stalledInterval this) (keys_delay this) (nextTimestamp this)
     (isBlocked this) (running this) (closing this) (emitted this) (S (promises this)),
   mkPromise how (promises this)).

Definition disconnect : QueueScheduler -> QueueScheduler * Promise :=
  fresh_promise by_disconnect.

Definition super_close : QueueScheduler -> QueueScheduler * Promise :=
  fresh_promise by_close.

(** [close()], lines 293-303: the new state and the returned promise. *)
Definition close (this : QueueScheduler) : QueueScheduler * Promise :=
  match closing this with
  | Some p => (this, p)
  | None =>
      if isBlocked this then
        let '(this, p) := disconnect this in (set_closing (Some p) this, p)
      else
        let '(this, p) := super_close this in (set_closing (Some p) this, p)
  end.

(* ================================================================== *)
(** ** Asynchronous methods *)

(** The calls a method waits for.  [Date_now] is answered on the spot; every
    other call is awaited, and the rest of the program runs meanwhile. *)
Inductive call : Type :=
| waitUntilReady
| client_setname (name : string)
| Scripts_updateDelaySet (timestamp : number)
| Scripts_moveStalledJobsToWait
| xread_BLOCK (blockTime : number) (key : string) (streamLastId : cursor)
| xread (key : string) (streamLastId : cursor)
| xtrim_MAXLEN (key : string) (threshold : Z)
| delay (ms : number)
| Date_now.

(** What a call can be answered with: a value, or a rejection. *)
Inductive answer : Type :=
| resolved
| resolved_number (n : number)
| resolved_delaySet (result : option (option number * option string))
| resolved_stalled (failed stalled : list string)
| resolved_stream (data : option StreamReadRaw)
| rejected (err : Error).

(** A method that has run up to its next stop: it has returned, it has
    thrown, or it waits for a call with the rest of its body as the
    continuation.  [s] is the instance as the method left it, and the
    continuation takes the instance as it is found on resumption. *)
Inductive res (A : Type) : Type :=
| Ret (s : QueueScheduler) (a : A)
| Throw (s : QueueScheduler) (e : Error)
| Await (s : QueueScheduler) (c : call) (k : answer -> QueueScheduler -> res A)
| Stuck
| Spin.

Arguments Ret {A} s a.
Arguments Throw {A} s e.
Arguments Await {A} s c k.
Arguments Stuck {A}.
Arguments Spin {A}.

(** [Stuck]: resumed with an answer of the wrong shape; [Spin]: the loop's
    iteration budget is used up. *)

Definition M (A : Type) : Type := QueueScheduler -> res A.

Fixpoint bind_res {A B : Type} (p : res A) (f : A -> M B) : res B :=
  match p with
  | Ret s a => f a s
  | Throw s e => Throw s e
  | Await s c k => Await s c (fun a s' => bind_res (k a s') f)
  | Stuck => Stuck
  | Spin => Spin
  end.

Fixpoint catch_res {A : Type} (p : res A) (h : Error -> M A) : res A :=
  match p with
  | Ret s a => Ret s a
  | Throw s e => h e s
  | Await s c k => Await s c (fun a s' => catch_res (k a s') h)
  | Stuck => Stuck
  | Spin => Spin
  end.

Fixpoint finally_res {A : Type} (p : res A) (f : M unit) : res A :=
  match p with
  | Ret s a => bind_res (f s) (fun _ s' => Ret s' a)
  | Throw s e => bind_res (f s) (fun _ s' => Throw s' e)
  | Await s c k => Await s c (fun a s' => finally_res (k a s') f)
  | Stuck => Stuck
  | Spin => Spin
  end.

Definition ret {A : Type} (a : A) : M A := fun s => Ret s a.
Definition throw {A : Type} (e : Error) : M A := fun s => Throw s e.
Definition bind {A B : Type} (m : M A) (f : A -> M B) : M B :=
  fun s => bind_res (m s) f.
Definition try_catch {A : Type} (m : M A) (h : Error -> M A) : M A :=
  fun s => catch_res (m s) h.
Definition try_finally {A : Type} (m : M A) (f : M unit) : M A :=
  fun s => finally_res (m s) f.
Definition gets {A : Type} (f : QueueScheduler -> A) : M A := fun s => Ret s (f s).
Definition modify (f : QueueScheduler -> QueueScheduler) : M unit :=
  fun s => Ret (f s) tt.
Definition spin {A : Type} : M A := fun _ => Spin.

Declare Scope async_scope.
Delimit Scope async_scope with async.
Notation "x <- m ;; k" := (bind m (fun x => k))
  (at level 61, m at next level, right associativity) : async_scope.
Notation "' p <- m ;; k" := (bind m (fun x => let 'p := x in k))
  (at level 61, p pattern, m at next level, right associativity) : async_scope.
Notation "m ;; k" := (bind m (fun _ => k))
  (at level 61, right associativity) : async_scope.
Open Scope async_scope.

(** [await] of a call, by the shape of the value it resolves to. *)
Definition await_ (c : call) : M unit :=
  fun s => Await s c (fun a s' =>
    match a with
    | resolved => Ret s' tt
    | resolved_number _ => Ret s' tt
    | rejected err => Throw s' err
    | _ => Stuck
    end).

Definition await_delaySet (c : call) : M (option (option number * option string)) :=
  fun s => Await s c (fun a s' =>
    match a with
    | resolved_delaySet r => Ret s' r
    | rejected err => Throw s' err
    | _ => Stuck
    end).

Definition await_stalled (c : call) : M (list string * list string) :=
  fun s => Await s c (fun a s' =>
    match a with
    | resolved_stalled failed stalled => Ret s' (failed, stalled)
    | rejected err => Throw s' err
    | _ => Stuck
    end).

Definition await_stream (c : call) : M (option StreamReadRaw) :=
  fun s => Await s c (fun a s' =>
    match a with
    | resolved_stream data => Ret s' data
    | rejected err => Throw s' err
    | _ => Stuck
    end).

(** [Date.now()]. *)
Definition now : M number :=
  fun s => Await s Date_now (fun a s' =>
    match a with
    | resolved_number n => Ret s' n
    | _ => Stuck
    end).

(** Modelled from the spec: [emit] of the emitter that [QueueBase] inherits
    ([super.emit]), which is not among the sources.  Section 6 of the spec:
    the events [error], [failed] and [stalled] go to the listeners that
    consumers have added.  The model records the event, in the order of the
    calls, in [emitted], and stops there: listeners are not part of it, so
    this is the emitter with listeners that return.  What a listener throws
    is not caught by the emitter (section 6) and would leave [emit]; nothing
    in this development is about an exception out of [emit]. *)
Definition super_emit (ev : Event) : M unit := modify (push_emitted ev).

(** [emit(event, ...args)], lines 95-100. *)
Definition emit (ev : Event) : M unit := super_emit ev.

(** [list.forEach(f)]. *)
Fixpoint forEach {A : Type} (l : list A) (f : A -> M unit) : M unit :=
  match l with
  | [] => ret tt
  | x :: l => f x ;; forEach l f
  end.

(** Array destructuring [const [a, b] = v]: a [TypeError] when [v] is
    [undefined]. *)
Definition destructure {A B : Type} (v : option (A * B)) : M (A * B) :=
  match v with
  | Some p => ret p
  | None => throw (mkError "undefined is not iterable")
  end.

(* ------------------------------------------------------------------ *)
(** *** Options *)

(** A property of an options object: not there, there with the value
    [undefined], or there with a value. *)
Inductive property (A : Type) : Type :=
| absent
| undefined
| given (a : A).

Arguments absent {A}.
Arguments undefined {A}.

Record QueueSchedulerOptions : Type := {
  autorun : property bool;
  maxStalledCount : property number;
  stalledInterval : property number
}.

(** [{ stalledInterval: 30000, ...opts }]: a property of [opts] overrides the
    default whenever it is there, also with the value [undefined]. *)
Definition spread_over {A : Type} (default : A) (p : property A) : option A :=
  match p with
  | absent => Some default
  | undefined => None
  | given a => Some a
  end.

(** [{ autorun = true }]: the default of a destructuring pattern applies
    when the property is not there or is [undefined]. *)
Definition destructured_default {A : Type} (default : A) (p : property A) : A :=
  match p with
  | given a => a
  | _ => default
  end.

(** What [new QueueScheduler(...)] gives: an exception, or the instance
    together with the loop started by [autorun], if any. *)
Inductive constructed : Type :=
| construction_throws (e : Error)
| instance (this : QueueScheduler) (started : option (res unit)).

(* ================================================================== *)
(** ** The class *)

(** What the file imports from [../utils] and inherits from [QueueBase];
    neither is among the sources, so the methods are written over any
    implementation of these. *)
Class Imports : Type := {
  array2obj : list string -> string -> option string;
  clientCommandMessageReg_test : string -> bool;
  DELAY_TIME_5 : number;
  isNotConnectionError : Error -> bool;
  QUEUE_SCHEDULER_SUFFIX : string;
  clientName : string -> string;
  toKey : string -> string -> string
}.

Section Methods.

Context {imports : Imports}.

(** Modelled from the spec: [checkConnectionError] of [QueueBase], which is
    not among the sources.  Section 4.2 of the spec: the guard wraps a single
    remote call, and paths other than the blocking read rethrow through it
    unchanged. *)
Definition checkConnectionError {A : Type} (fn : M A) : M A := fn.

(** [updateDelaySet(timestamp)], lines 266-275. *)
Definition updateDelaySet (timestamp : number)
  : M (option (option number * option string)) :=
  closing <- gets closing ;;
  if negb (is_set closing) then
    result <- checkConnectionError (await_delaySet (Scripts_updateDelaySet timestamp)) ;;
    ret result
  else ret (Some (Some (of_Z 0), Some "0"%string)).

(** [moveStalledJobsToWait()], lines 277-291. *)
Definition moveStalledJobsToWait : M unit :=
  closing <- gets closing ;;
  if negb (is_set closing) then
    '(failed, stalled) <- await_stalled Scripts_moveStalledJobsToWait ;;
    forEach failed (fun jobId =>
      emit (failed_event jobId (mkError "job stalled more than allowable limit")
              "active")) ;;
    forEach stalled (fun jobId => emit (stalled_event jobId "active"))
  else ret tt.

(** [readDelayedData(client, key, streamLastId, blockTime)], lines 227-264.
    The result is [None] for [undefined] and for the [null] of a read that
    timed out. *)
Definition readDelayedData (key : string) (streamLastId : cursor) (blockTime : number)
  : M (option StreamReadRaw) :=
  closing <- gets closing ;;
  if negb (is_set closing) then
    if truthy blockTime then
      try_finally
        (try_catch
           (modify (set_isBlocked true) ;;
            await_stream (xread_BLOCK blockTime key streamLastId))
           (fun err =>
              if isNotConnectionError err then throw err
              else await_ (delay DELAY_TIME_5) ;; ret None))
        (modify (set_isBlocked false))
    else
      checkConnectionError (await_stream (xread key streamLastId))
  else ret None.

(** Lines 161-165: the time to block for. *)
Definition blockTime (stalledInterval : option number) (nextTimestamp now : number)
  : number :=
  let nextDelay := sub nextTimestamp now in
  Math_round (Math_min (ToNumber stalledInterval) (Math_max nextDelay (of_Z 0))).

(** Lines 178-186: the [for] loop over the entries of a batch. *)
Fixpoint processEvents (events : list StreamEntry) (streamLastId : cursor) : M cursor :=
  match events with
  | [] => ret streamLastId
  | event :: events =>
      let streamLastId := Some (fst event) in
      let args := array2obj (snd event) in
      let nextTimestamp' := parseInt (args "nextTimestamp"%string) in
      this_nextTimestamp <- gets nextTimestamp ;;
      (if ltb nextTimestamp' this_nextTimestamp
       then modify (set_nextTimestamp nextTimestamp')
       else ret tt) ;;
      processEvents events streamLastId
  end.

(** Lines 174-197: what is done with the data of a read. *)
Definition applyData (key : string) (data : option StreamReadRaw) (streamLastId : cursor)
  : M cursor :=
  match data with
  | Some (stream :: _) =>
      let events := snd stream in
      streamLastId <- processEvents events streamLastId ;;
      closing <- gets closing ;;
      (if negb (is_set closing)
       then checkConnectionError (await_ (xtrim_MAXLEN key 100))
       else ret tt) ;;
      ret streamLastId
  | _ => ret streamLastId
  end.

(** Lines 199-211: promotion of the jobs that are due. *)
Definition dueTimePromotion (streamLastId : cursor) : M cursor :=
  now' <- now ;;
  this_nextTimestamp <- gets nextTimestamp ;;
  let nextDelayedJobDelay := sub this_nextTimestamp now' in
  if leb nextDelayedJobDelay (of_Z 0) then
    result <- updateDelaySet now' ;;
    '(nextTimestamp', id) <- destructure result ;;
    if truthy_opt nextTimestamp' then
      modify (set_nextTimestamp (ToNumber nextTimestamp')) ;;
      ret id
    else
      modify (set_nextTimestamp MAX_VALUE) ;;
      ret streamLastId
  else ret streamLastId.

(** Lines 156-197: an iteration of the loop up to the promotion step. *)
Definition readAndApply (key : string) (streamLastId : cursor) : M cursor :=
  checkConnectionError moveStalledJobsToWait ;;
  this_nextTimestamp <- gets nextTimestamp ;;
  now' <- now ;;
  stalledInterval <- gets opts_stalledInterval ;;
  let blockTime' := blockTime stalledInterval this_nextTimestamp now' in
  data <- readDelayedData key streamLastId blockTime' ;;
  applyData key data streamLastId.

(** Lines 156-211: the body of the [while] loop. *)
Definition iteration (key : string) (streamLastId : cursor) : M cursor :=
  streamLastId <- readAndApply key streamLastId ;;
  dueTimePromotion streamLastId.

(** Lines 155-212: [while (!this.closing)], for at most [fuel] iterations. *)
Fixpoint loop (fuel : nat) (key : string) (streamLastId : cursor) : M unit :=
  match fuel with
  | O => spin
  | S fuel =>
      closing <- gets closing ;;
      if negb (is_set closing) then
        streamLastId <- iteration key streamLastId ;;
        loop fuel key streamLastId
      else ret tt
  end.

(** Lines 129-213: the body of the [try] of [run]. *)
Definition run_body (fuel : nat) : M unit :=
  modify (set_running true) ;;
  await_ waitUntilReady ;;
  key <- gets keys_delay ;;
  try_catch
    (await_ (client_setname (clientName QUEUE_SCHEDULER_SUFFIX)))
    (fun err =>
       if negb (clientCommandMessageReg_test (message err)) then throw err
       else ret tt) ;;
  now' <- now ;;
  result <- updateDelaySet now' ;;
  '(nextTimestamp', streamId) <- destructure result ;;
  let streamLastId :=
    match streamId with Some id => Some id | None => Some "0-0"%string end in
  (if truthy_opt nextTimestamp'
   then modify (set_nextTimestamp (ToNumber nextTimestamp'))
   else ret tt) ;;
  loop fuel key streamLastId ;;
  modify (set_running false).

(** [run()], lines 126-221. *)
Definition run (fuel : nat) : M unit :=
  running <- gets running ;;
  if negb running then
    try_catch (run_body fuel)
              (fun error => modify (set_running false) ;; throw error)
  else throw (mkError "Queue Scheduler is already running.").

(** [isRunning()]. *)
Definition isRunning (this : QueueScheduler) : bool := running this.

(* ------------------------------------------------------------------ *)
(** *** The constructor *)

(** The constructor, lines 64-93.  The base class keeps the merged options
    in [this.opts] and derives the keys of the queue from its name. *)
Definition constructor (fuel : nat) (name : string) (options : QueueSchedulerOptions)
  : constructed :=
  let autorun := destructured_default true (autorun options) in
  let this :=
    mkQueueScheduler
      (spread_over (of_Z 30000) (stalledInterval options))
      (toKey name "delay")
      MAX_VALUE false false None [] 0 in
  if negb (truthy_opt (opts_stalledInterval this)) then
    construction_throws (mkError "Stalled interval cannot be zero or undefined")
  else if autorun then
    instance this
      (Some (try_catch (run fuel) (fun error => emit (error_event error)) this))
  else instance this None.

End Methods.

(* ================================================================== *)
(** ** Running a method *)

(** The call a method waits for, the instance as it stands at that point,
    and the method after the call has been answered with [a] and the
    instance is found as [s']. *)
Definition pending {A : Type} (p : res A) : option call :=
  match p with
  | Await _ c _ => Some c
  | _ => None
  end.

Definition state_of {A : Type} (p : res A) : option QueueScheduler :=
  match p with
  | Ret s _ | Throw s _ | Await s _ _ => Some s
  | Stuck | Spin => None
  end.

Definition resume {A : Type} (p : res A) (a : answer) (s' : QueueScheduler) : res A :=
  match p with
  | Await _ _ k => k a s'
  | _ => p
  end.

(** What the rest of the program may do to the instance while a call is
    awaited: nothing, or [close()].  A second [run()] throws without
    touching the instance, and [Date.now()] does not yield. *)
Inductive interfere : call -> QueueScheduler -> QueueScheduler -> Prop :=
| interfere_none (c : call) (s : QueueScheduler) : interfere c s s
| interfere_close (c : call) (s : QueueScheduler) :
    c <> Date_now -> interfere c s (fst (close s)).

(** [always P p]: [P] holds of [p] and of every point the method can reach
    from [p], whatever the calls are answered with. *)
Fixpoint always {A : Type} (P : res A -> Prop) (p : res A) : Prop :=
  P p /\
  match p with
  | Await s c k => forall a s', interfere c s s' -> always P (k a s')
  | _ => True
  end.

(** [keeps R m]: wherever [m] stands, the instance is related by [R] to the
    instance [m] was started on. *)
Definition keeps (R : QueueScheduler -> QueueScheduler -> Prop) {A : Type} (m : M A)
  : Prop :=
  forall s, always (fun p => forall s', state_of p = Some s' -> R s s') (m s).

(** [nextTimestamp] has not been raised from [n0] to [n]. *)
Definition not_raised (n0 n : number) : Prop := n = n0 \/ ltb n n0 = true.

(** The value [parseInt(args.nextTimestamp)] of an entry. *)
Definition parsed_nextTimestamp {imports : Imports} (event : StreamEntry) : number :=
  parseInt (array2obj (snd event) "nextTimestamp"%string).

(** Whether a pending call is the blocking read. *)
Definition is_blocking_read (c : call) : bool :=
  match c with
  | xread_BLOCK _ _ _ => true
  | _ => false
  end.

(* ------------------------------------------------------------------ *)
(** *** An implementation of the imports, for the examples *)

Fixpoint pairs2obj (arr : list string) (key : string) : option string :=
  match arr with
  | k :: v :: arr =>
      match pairs2obj arr key with
      | Some v' => Some v'
      | None => if String.eqb k key then Some v else None
      end
  | _ => None
  end.

Definition sample_imports : Imports := {|
  array2obj := pairs2obj;
  clientCommandMessageReg_test := String.eqb "ERR unknown command 'client'";
  DELAY_TIME_5 := of_Z 5000;
  isNotConnectionError := fun err => negb (String.eqb (message err) "Connection is closed.");
  QUEUE_SCHEDULER_SUFFIX := ":qs";
  clientName := fun suffix => String.append "bull:cXVldWU=" suffix;
  toKey := fun name type => String.append "bull:" (String.append name (String.append ":" type))
|}.

(** A scheduler as the constructor leaves it, with the loop not started. *)
Definition sample_scheduler : QueueScheduler :=
  mkQueueScheduler (Some (of_Z 30000)) "bull:queue:delay" MAX_VALUE false false None [] 0.

(** [resume_same p a]: the pending call of [p] is answered with [a] and
    nothing else has happened to the instance meanwhile. *)
Definition resume_same {A : Type} (p : res A) (a : answer) : res A :=
  match p with
  | Await s _ k => k a s
  | _ => p
  end.

(** The instance after [emit] has been called with each of [evs] in turn. *)
Definition emit_all (evs : list Event) (s : QueueScheduler) : QueueScheduler :=
  fold_left (fun s ev => push_emitted ev s) evs s.

(** The events of a stall sweep. *)
Definition failed_events (failed : list string) : list Event :=
  map (fun jobId =>
         failed_event jobId (mkError "job stalled more than allowable limit") "active")
      failed.

Definition stalled_events (stalled : list string) : list Event :=
  map (fun jobId => stalled_event jobId "active") stalled.

(** [ok pre P m]: started on an instance with [pre], the method [m] only
    goes through points with [P]. *)
Definition ok (pre : QueueScheduler -> Prop) (P : forall A : Type, res A -> Prop)
           {A : Type} (m : M A) : Prop :=
  forall s, pre s -> always (@P A) (m s).

(** A point where the blocking read is pending and a rejection of it with an
    error that is not of the connection class makes the method throw that
    error, leaving the instance as [g] of what it is found to be. *)
Definition fatal_read {imports : Imports} (g : QueueScheduler -> QueueScheduler)
           (A : Type) (p : res A) : Prop :=
  match p with
  | Await s c k =>
      is_blocking_read c = true ->
      forall err s', isNotConnectionError err = true ->
                     k (rejected err) s' = Throw (g s') err
  | _ => True
  end.


(* ------------------------------------------------------------------ *)
(** *** Where [nextTimestamp] is raised *)

(** A point of an iteration before its return at which [nextTimestamp] is
    not above [n0]. *)
Definition not_raised_before_return (n0 : number) (A : Type) (p : res A) : Prop :=
  match p with
  | Await s _ _ | Throw s _ => not_raised n0 (nextTimestamp s)
  | Ret _ _ | Stuck | Spin => True
  end.

(** What the promotion step has come to once the promotion operation has been
    answered with [a], the instance then being [s']: it has returned, the
    answer being a pair whose timestamp was adopted together with its
    position, or was falsy and made [nextTimestamp] the sentinel; or it has
    thrown, with the instance as it was found.  It waits for nothing more.
    ([Stuck] is the point after an answer that the operation cannot give.) *)
Definition promotion_outcome (streamLastId : cursor) (a : answer) (s' : QueueScheduler)
           (p : res cursor) : Prop :=
  match p with
  | Ret s2 streamLastId' =>
      exists v id,
        a = resolved_delaySet (Some (v, id))
        /\ ((truthy_opt v = true
             /\ s2 = set_nextTimestamp (ToNumber v) s' /\ streamLastId' = id)
            \/ (truthy_opt v = false
                /\ s2 = set_nextTimestamp MAX_VALUE s'
                /\ streamLastId' = streamLastId))
  | Throw s2 _ => s2 = s'
  | Stuck => True
  | Await _ _ _ | Spin => False
  end.

(* ------------------------------------------------------------------ *)
(** *** What the loop never does *)

(** Whether a call is one of the remote operations that the class guards with
    [if (!this.closing)]: the two scripts, the two reads and the trim. *)
Definition is_remote (c : call) : bool :=
  match c with
  | Scripts_updateDelaySet _
  | Scripts_moveStalledJobsToWait
  | xread_BLOCK _ _ _
  | xread _ _
  | xtrim_MAXLEN _ _ => true
  | _ => false
  end.

(** A point that is not a blocking read with a block time of zero or [NaN]. *)
Definition blocks_for_nonzero_time (A : Type) (p : res A) : Prop :=
  match p with
  | Await _ (xread_BLOCK blockTime _ _) _ => truthy blockTime = true
  | _ => True
  end.

(** A point where a remote operation is pending only if no shutdown was
    pending when it was issued. *)
Definition remote_only_while_open (A : Type) (p : res A) : Prop :=
  match p with
  | Await s c _ => is_remote c = true -> closing s = None
  | _ => True
  end.

(** [isRunning()] at a point inside [run], and at a point of [run] itself:
    true while a call is pending, false once [run] has returned or thrown. *)
Definition running_inside (A : Type) (p : res A) : Prop :=
  match p with
  | Ret s _ | Throw s _ | Await s _ _ => isRunning s = true
  | Stuck | Spin => True
  end.

(** The same at a point of the body of the [try] of [run]: a throw there
    still has [running] set, the [catch] resets it. *)
Definition running_in_try (A : Type) (p : res A) : Prop :=
  match p with
  | Await s _ _ | Throw s _ => isRunning s = true
  | Ret s _ => isRunning s = false
  | Stuck | Spin => True
  end.

Definition running_until_exit (A : Type) (p : res A) : Prop :=
  match p with
  | Await s _ _ => isRunning s = true
  | Ret s _ | Throw s _ => isRunning s = false
  | Stuck | Spin => True
  end.

(** A point where the stalled interval in the options is [z] milliseconds
    and, when the blocking read is pending, its block time is above zero
    and at most [z]. *)
Definition blocks_within (z : Z) (A : Type) (p : res A) : Prop :=
  match p with
  | Ret s _ | Throw s _ => opts_stalledInterval s = Some (of_Z z)
  | Await s c _ =>
      opts_stalledInterval s = Some (of_Z z)
      /\ match c with
         | xread_BLOCK blockTime _ _ =>
             ltb (of_Z 0) blockTime = true /\ leb blockTime (of_Z z) = true
         | _ => True
         end
  | Stuck | Spin => True
  end.

(** [ends_within n p]: from [p] the method returns or throws after at most
    [n] more calls, none of them a remote operation, whatever the calls are
    answered with, and a shutdown is pending when it does.  ([Stuck] is the
    point after an answer that the call cannot give.) *)
Fixpoint ends_within {A : Type} (n : nat) (p : res A) {struct p} : Prop :=
  match p with
  | Ret s _ | Throw s _ => is_set (closing s) = true
  | Await s c k =>
      is_remote c = false
      /\ match n with
         | O => False
         | S n => forall a s', interfere c s s' -> ends_within n (k a s')
         end
  | Stuck => True
  | Spin => False
  end.

(** A point where, if [close()] is called while the call is pending, the
    method ends within [n] further calls. *)
Definition stops_after_close (n : nat) (A : Type) (p : res A) : Prop :=
  match p with
  | Await s c k => c <> Date_now -> forall a, ends_within n (k a (fst (close s)))
  | _ => True
  end.

(** The same for a method that is followed by [rest]: if [close()] is called
    while the call is pending, the method and [rest] after it end within [n]
    further calls. *)
Definition stops_after_close_with (n : nat) {A B : Type} (rest : A -> M B) (p : res A)
  : Prop :=
  match p with
  | Await s c k =>
      c <> Date_now -> forall a, ends_within n (bind_res (k a (fst (close s))) rest)
  | _ => True
  end.

(** [winds_down b t m]: a [close()] during a call of [m] leaves at most [b]
    further calls to [m], and [m] started with a shutdown pending makes at
    most [t]. *)
Definition winds_down (b t : nat) {A : Type} (m : M A) : Prop :=
  (forall s, always (stops_after_close b (A := A)) (m s))
  /\ (forall s, is_set (closing s) = true -> ends_within t (m s)).

(* ================================================================== *)
(** ** Properties of numbers *)

Example parseInt_digits : parseInt (Some "1700000000500"%string) = of_Z 1700000000500.
Proof. reflexivity. Qed.

Example parseInt_undefined : parseInt None = NaN.
Proof. reflexivity. Qed.

Example parseInt_prefix : parseInt (Some "  -42ms"%string) = of_Z (-42).
Proof. reflexivity. Qed.

Example parseInt_hex : parseInt (Some "0x1F"%string) = of_Z 31.
Proof. reflexivity. Qed.


Module NumberFacts.

Lemma ltb_Fin (x y : Q) : ltb (Fin x) (Fin y) = true <-> (x < y)%Q.
Proof.
  simpl. rewrite Qlt_alt. destruct (x ?= y)%Q; split; congruence.
Qed.

Lemma leb_Fin (x y : Q) : leb (Fin x) (Fin y) = true <-> (x <= y)%Q.
Proof. simpl. apply Qle_bool_iff. Qed.

Lemma ltb_Fin_false (x y : Q) : ltb (Fin x) (Fin y) = false <-> (y <= x)%Q.
Proof.
  split; intro H.
  - apply Qnot_lt_le. intro L. apply ltb_Fin in L. congruence.
  - destruct (ltb (Fin x) (Fin y)) eqn:E; [|reflexivity].
    apply ltb_Fin in E. exfalso. exact (Qlt_not_le _ _ E H).
Qed.

Lemma ltb_trans (a b c : number) :
  ltb a b = true -> ltb b c = true -> ltb a c = true.
Proof.
  destruct a, b, c; try (simpl; intros; reflexivity || discriminate).
  rewrite !ltb_Fin. apply Qlt_trans.
Qed.

Lemma ltb_not_NaN (a b : number) :
  ltb a b = true -> is_NaN a = false /\ is_NaN b = false.
Proof. destruct a, b; simpl; intros; try discriminate; split; reflexivity. Qed.

Lemma not_raised_refl (n : number) : not_raised n n.
Proof. left. reflexivity. Qed.

Lemma not_raised_trans (a b c : number) :
  not_raised a b -> not_raised b c -> not_raised a c.
Proof.
  intros [-> | H1] [-> | H2].
  - left. reflexivity.
  - right. assumption.
  - right. assumption.
  - right. eapply ltb_trans; eassumption.
Qed.

(** [Math.round] on an integer and its monotonicity. *)
Lemma Math_round_of_Z (z : Z) : Math_round (of_Z z) = of_Z z.
Proof.
  unfold Math_round, of_Z. f_equal. f_equal.
  assert (E : Qfloor (inject_Z z + (1 # 2)) = z).
  { pose proof (Qfloor_le (inject_Z z + (1 # 2))) as Hl.
    pose proof (Qlt_floor (inject_Z z + (1 # 2))) as Hu.
    set (f := Qfloor (inject_Z z + (1 # 2))) in *.
    unfold Qle, Qlt, Qplus, inject_Z in Hl, Hu. simpl in Hl, Hu. lia. }
  exact E.
Qed.

Lemma Math_round_mono (x y : Q) :
  (x <= y)%Q -> leb (Math_round (Fin x)) (Math_round (Fin y)) = true.
Proof.
  intro H. unfold Math_round, of_Z. apply leb_Fin.
  rewrite <- Zle_Qle. apply Qfloor_resp_le.
  apply Qplus_le_l. exact H.
Qed.

End NumberFacts.

Import NumberFacts.

(* ================================================================== *)
(** ** Reasoning about methods *)

Section Always.

Context {A : Type}.

Lemma always_mono (P Q : res A -> Prop) (p : res A) :
  (forall q, P q -> Q q) -> always P p -> always Q p.
Proof.
  intros PQ. induction p as [s a | s e | s c k IH | |]; simpl;
    intros [H0 H1]; split; auto.
Qed.

End Always.

Section Compose.

Context {A B : Type}.

(** A property of [bind_res p f] from one of [p] and one of what [f] does
    after [p] has returned. *)
Lemma always_bind_res (P : res A -> Prop) (Q : res B -> Prop)
      (p : res A) (f : A -> M B) :
  always P p ->
  (forall s a, P (Ret s a) -> always Q (f a s)) ->
  (forall s e, P (Throw s e) -> Q (Throw s e)) ->
  (forall s c k, P (Await s c k) -> Q (Await s c (fun a s' => bind_res (k a s') f))) ->
  Q Stuck -> Q Spin ->
  always Q (bind_res p f).
Proof.
  intros Hp Hret Hthrow Hawait Hstuck Hspin.
  induction p as [s a | s e | s c k IH | |]; simpl in *.
  - apply Hret, Hp.
  - split; [apply Hthrow, Hp | exact I].
  - destruct Hp as [H0 H1]. split.
    + apply Hawait, H0.
    + intros a s' Hi. apply IH, H1, Hi.
  - split; trivial.
  - split; trivial.
Qed.

End Compose.

Section Handlers.

Context {A : Type}.

(** The same for [try { p } catch (e) { h e }]. *)
Lemma always_catch_res (P Q : res A -> Prop) (p : res A) (h : Error -> M A) :
  always P p ->
  (forall s a, P (Ret s a) -> Q (Ret s a)) ->
  (forall s e, P (Throw s e) -> always Q (h e s)) ->
  (forall s c k, P (Await s c k) -> Q (Await s c (fun a s' => catch_res (k a s') h))) ->
  Q Stuck -> Q Spin ->
  always Q (catch_res p h).
Proof.
  intros Hp Hret Hthrow Hawait Hstuck Hspin.
  induction p as [s a | s e | s c k IH | |]; simpl in *.
  - split; [apply Hret, Hp | exact I].
  - apply Hthrow, Hp.
  - destruct Hp as [H0 H1]. split.
    + apply Hawait, H0.
    + intros a s' Hi. apply IH, H1, Hi.
  - split; trivial.
  - split; trivial.
Qed.

(** The same for [try { p } finally { this.field = v }]. *)
Lemma always_finally_res (P Q : res A -> Prop) (p : res A)
      (g : QueueScheduler -> QueueScheduler) :
  always P p ->
  (forall s a, P (Ret s a) -> Q (Ret (g s) a)) ->
  (forall s e, P (Throw s e) -> Q (Throw (g s) e)) ->
  (forall s c k, P (Await s c k) ->
                 Q (Await s c (fun a s' => finally_res (k a s') (modify g)))) ->
  Q Stuck -> Q Spin ->
  always Q (finally_res p (modify g)).
Proof.
  intros Hp Hret Hthrow Hawait Hstuck Hspin.
  induction p as [s a | s e | s c k IH | |]; simpl in *.
  - split; [apply Hret, Hp | exact I].
  - split; [apply Hthrow, Hp | exact I].
  - destruct Hp as [H0 H1]. split.
    + apply Hawait, H0.
    + intros a s' Hi. apply IH, H1, Hi.
  - split; trivial.
  - split; trivial.
Qed.

End Handlers.

(** *** Relations that a method keeps *)

Section Keeps.

Variable R : QueueScheduler -> QueueScheduler -> Prop.
Hypothesis R_refl : forall s, R s s.
Hypothesis R_trans : forall s1 s2 s3, R s1 s2 -> R s2 s3 -> R s1 s3.
Hypothesis R_close : forall s, R s (fst (close s)).

Lemma R_interfere (c : call) (s s' : QueueScheduler) : interfere c s s' -> R s s'.
Proof. intros [c' s0 | c' s0 _]; auto. Qed.

Lemma keeps_ret {A : Type} (a : A) : keeps R (ret a).
Proof. intros s. simpl. split; [|exact I]. intros s' [= <-]. apply R_refl. Qed.

Lemma keeps_throw {A : Type} (e : Error) : keeps R (throw (A := A) e).
Proof. intros s. simpl. split; [|exact I]. intros s' [= <-]. apply R_refl. Qed.

Lemma keeps_spin {A : Type} : keeps R (spin (A := A)).
Proof. intros s. simpl. split; [|exact I]. discriminate. Qed.

Lemma keeps_gets {A : Type} (f : QueueScheduler -> A) : keeps R (gets f).
Proof. intros s. simpl. split; [|exact I]. intros s' [= <-]. apply R_refl. Qed.

Lemma keeps_modify (g : QueueScheduler -> QueueScheduler) :
  (forall s, R s (g s)) -> keeps R (modify g).
Proof. intros Hg s. simpl. split; [|exact I]. intros s' [= <-]. apply Hg. Qed.

Lemma keeps_bind {A B : Type} (m : M A) (f : A -> M B) :
  keeps R m -> (forall a, keeps R (f a)) -> keeps R (bind m f).
Proof.
  intros Hm Hf s. unfold bind.
  eapply always_bind_res with (1 := Hm s); simpl; try discriminate.
  - intros s1 a H1. eapply always_mono; [|apply (Hf a s1)].
    simpl. intros q Hq s' E. eapply R_trans; [apply H1; reflexivity | apply Hq, E].
  - intros s1 e H1. exact H1.
  - intros s1 c k H1. exact H1.
Qed.

Lemma keeps_try_catch {A : Type} (m : M A) (h : Error -> M A) :
  keeps R m -> (forall e, keeps R (h e)) -> keeps R (try_catch m h).
Proof.
  intros Hm Hh s. unfold try_catch.
  eapply always_catch_res with (1 := Hm s); simpl; try discriminate.
  - intros s1 a H1. exact H1.
  - intros s1 e H1. eapply always_mono; [|apply (Hh e s1)].
    simpl. intros q Hq s' E. eapply R_trans; [apply H1; reflexivity | apply Hq, E].
  - intros s1 c k H1. exact H1.
Qed.

Lemma keeps_try_finally {A : Type} (m : M A) (g : QueueScheduler -> QueueScheduler) :
  keeps R m -> (forall s, R s (g s)) -> keeps R (try_finally m (modify g)).
Proof.
  intros Hm Hg s. unfold try_finally.
  eapply always_finally_res with (1 := Hm s); simpl; try discriminate.
  - intros s1 a H1 s' [= <-]. eapply R_trans; [apply H1; reflexivity | apply Hg].
  - intros s1 e H1 s' [= <-]. eapply R_trans; [apply H1; reflexivity | apply Hg].
  - intros s1 c k H1. exact H1.
Qed.

Lemma keeps_await (c : call) : keeps R (await_ c).
Proof.
  intros s. simpl. split.
  - intros s' [= <-]. apply R_refl.
  - intros a s' Hi. apply R_interfere in Hi.
    destruct a; simpl; split; trivial; try discriminate; intros s2 [= <-]; exact Hi.
Qed.

Lemma keeps_await_delaySet (c : call) : keeps R (await_delaySet c).
Proof.
  intros s. simpl. split.
  - intros s' [= <-]. apply R_refl.
  - intros a s' Hi. apply R_interfere in Hi.
    destruct a; simpl; split; trivial; try discriminate; intros s2 [= <-]; exact Hi.
Qed.

Lemma keeps_await_stalled (c : call) : keeps R (await_stalled c).
Proof.
  intros s. simpl. split.
  - intros s' [= <-]. apply R_refl.
  - intros a s' Hi. apply R_interfere in Hi.
    destruct a; simpl; split; trivial; try discriminate; intros s2 [= <-]; exact Hi.
Qed.

Lemma keeps_await_stream (c : call) : keeps R (await_stream c).
Proof.
  intros s. simpl. split.
  - intros s' [= <-]. apply R_refl.
  - intros a s' Hi. apply R_interfere in Hi.
    destruct a; simpl; split; trivial; try discriminate; intros s2 [= <-]; exact Hi.
Qed.

Lemma keeps_now : keeps R now.
Proof.
  intros s. simpl. split.
  - intros s' [= <-]. apply R_refl.
  - intros a s' Hi. apply R_interfere in Hi.
    destruct a; simpl; split; trivial; try discriminate; intros s2 [= <-]; exact Hi.
Qed.

Lemma keeps_forEach {A : Type} (l : list A) (f : A -> M unit) :
  (forall x, keeps R (f x)) -> keeps R (forEach l f).
Proof.
  intros Hf. induction l as [|x l IH]; simpl.
  - apply keeps_ret.
  - apply keeps_bind; [apply Hf | intros _; exact IH].
Qed.

Lemma keeps_destructure {A B : Type} (v : option (A * B)) : keeps R (destructure v).
Proof. destruct v; [apply keeps_ret | apply keeps_throw]. Qed.

End Keeps.

Create HintDb keeps.

(** *** Relations kept by the methods of the class *)

Section KeptByMethods.

Context {imports : Imports}.

Variable R : QueueScheduler -> QueueScheduler -> Prop.
Hypothesis R_refl : forall s, R s s.
Hypothesis R_trans : forall s1 s2 s3, R s1 s2 -> R s2 s3 -> R s1 s3.
Hypothesis R_close : forall s, R s (fst (close s)).
Hypothesis R_isBlocked : forall b s, R s (set_isBlocked b s).
Hypothesis R_emitted : forall ev s, R s (push_emitted ev s).
Hypothesis R_lowered :
  forall v s, ltb v (nextTimestamp s) = true -> R s (set_nextTimestamp v s).

Local Hint Resolve keeps_ret keeps_throw keeps_gets keeps_modify keeps_await
  keeps_await_delaySet keeps_await_stalled keeps_await_stream keeps_now
  keeps_destructure keeps_spin : keeps.

Ltac keeps_step :=
  match goal with
  | |- keeps _ (bind _ _) => apply keeps_bind; [assumption .. | | intro]
  | |- keeps _ (try_catch _ _) => apply keeps_try_catch; [assumption .. | | intro]
  | |- keeps _ (try_finally _ (modify _)) =>
      apply keeps_try_finally; [assumption .. | | intro]
  | |- keeps _ (forEach _ _) => apply keeps_forEach; [assumption .. | intro]
  | |- keeps _ (checkConnectionError _) => unfold checkConnectionError
  | |- keeps _ (emit _) => apply keeps_modify; intro
  | |- keeps _ (let _ := _ in _) => cbv zeta
  | |- keeps _ (if ?b then _ else _) => destruct b eqn:?
  | |- keeps _ (let '(_, _) := ?x in _) => destruct x
  | |- keeps _ (match ?x with Some _ => _ | None => _ end) => destruct x
  | |- keeps _ _ => solve [auto with keeps]
  | |- R _ _ => solve [auto]
  end.

Lemma keeps_updateDelaySet (timestamp : number) : keeps R (updateDelaySet timestamp).
Proof. unfold updateDelaySet. repeat keeps_step. Qed.

Lemma keeps_moveStalledJobsToWait : keeps R moveStalledJobsToWait.
Proof. unfold moveStalledJobsToWait. repeat keeps_step. Qed.

Lemma keeps_readDelayedData (key : string) (streamLastId : cursor) (blockTime : number) :
  keeps R (readDelayedData key streamLastId blockTime).
Proof. unfold readDelayedData. repeat keeps_step. Qed.

Lemma keeps_processEvents (events : list StreamEntry) (streamLastId : cursor) :
  keeps R (processEvents events streamLastId).
Proof.
  revert streamLastId.
  induction events as [|event events IH]; intros streamLastId; simpl.
  - auto with keeps.
  - intros s. unfold bind, gets. simpl.
    destruct (ltb _ (nextTimestamp s)) eqn:E; simpl.
    + eapply always_mono; [|apply IH]. simpl. intros q Hq s' Es.
      eapply R_trans; [apply R_lowered, E | apply Hq, Es].
    + apply IH.
Qed.

Local Hint Resolve keeps_updateDelaySet keeps_moveStalledJobsToWait
  keeps_readDelayedData keeps_processEvents : keeps.

Lemma keeps_applyData (key : string) (data : option StreamReadRaw)
      (streamLastId : cursor) :
  keeps R (applyData key data streamLastId).
Proof.
  unfold applyData. destruct data as [[|stream data]|]; auto with keeps.
  repeat keeps_step.
Qed.

Local Hint Resolve keeps_applyData : keeps.

Lemma keeps_readAndApply (key : string) (streamLastId : cursor) :
  keeps R (readAndApply key streamLastId).
Proof. unfold readAndApply. repeat keeps_step. Qed.

(** With the two assignments of the promotion step also allowed, the
    relation is kept by the whole of [run]. *)
Hypothesis R_running : forall b s, R s (set_running b s).
Hypothesis R_adopted :
  forall v s, truthy v = true -> R s (set_nextTimestamp v s).
Hypothesis R_reset : forall s, R s (set_nextTimestamp MAX_VALUE s).

Lemma keeps_adopt (v : option number) :
  truthy_opt v = true -> keeps R (modify (set_nextTimestamp (ToNumber v))).
Proof.
  intros H. apply keeps_modify; try assumption. intros s.
  destruct v as [v|]; [apply R_adopted, H | discriminate].
Qed.

Local Hint Resolve keeps_readAndApply keeps_adopt : keeps.

Lemma keeps_dueTimePromotion (streamLastId : cursor) :
  keeps R (dueTimePromotion streamLastId).
Proof. unfold dueTimePromotion. repeat keeps_step. Qed.

Local Hint Resolve keeps_dueTimePromotion : keeps.

Lemma keeps_iteration (key : string) (streamLastId : cursor) :
  keeps R (iteration key streamLastId).
Proof. unfold iteration. repeat keeps_step. Qed.

Local Hint Resolve keeps_iteration : keeps.

Lemma keeps_loop (fuel : nat) (key : string) (streamLastId : cursor) :
  keeps R (loop fuel key streamLastId).
Proof.
  revert streamLastId. induction fuel as [|fuel IH]; intros streamLastId; simpl.
  - auto with keeps.
  - repeat keeps_step.
Qed.

Local Hint Resolve keeps_loop : keeps.

Lemma keeps_run (fuel : nat) : keeps R (run fuel).
Proof. unfold run, run_body. repeat keeps_step. Qed.

End KeptByMethods.

(* ================================================================== *)
(** ** The batch of a read: lines 178-186 *)

Section Batch.

Context {imports : Imports}.

Lemma set_nextTimestamp_same (s : QueueScheduler) :
  set_nextTimestamp (nextTimestamp s) s = s.
Proof. destruct s; reflexivity. Qed.

Lemma ltb_irrefl (a : number) : ltb a a = false.
Proof.
  destruct a; simpl; try reflexivity.
  destruct (q ?= q)%Q eqn:E; try reflexivity.
  apply Qlt_alt in E. exfalso. exact (Qlt_irrefl _ E).
Qed.

Lemma not_raised_not_below (n0 n v : number) :
  not_raised n0 n -> ltb v n0 = false -> ltb v n = false.
Proof.
  intros [-> | H] Hv; [exact Hv|].
  destruct (ltb v n) eqn:E; [|reflexivity].
  rewrite (ltb_trans _ _ _ E H) in Hv. discriminate.
Qed.

Lemma last_cons_default {A : Type} (l : list A) (a d : A) :
  last (a :: l) d = last l a.
Proof.
  revert a d. induction l as [|b l IH]; intros a d; [reflexivity|].
  change (last (a :: b :: l) d) with (last (b :: l) d).
  rewrite (IH b d), (IH b a). reflexivity.
Qed.

(** The loop returns; it leaves everything but [nextTimestamp] as it was,
    the cursor on the last entry, and in [nextTimestamp] a candidate that no
    entry is below. *)
Lemma processEvents_spec (events : list StreamEntry) :
  forall (streamLastId : cursor) (s : QueueScheduler),
  exists n,
    processEvents events streamLastId s =
      Ret (set_nextTimestamp n s)
          (last (map (fun event => Some (fst event)) events) streamLastId)
    /\ not_raised (nextTimestamp s) n
    /\ In n (nextTimestamp s :: map parsed_nextTimestamp events)
    /\ Forall (fun event => ltb (parsed_nextTimestamp event) n = false) events.
Proof.
  induction events as [|event events IH]; intros streamLastId s.
  - exists (nextTimestamp s). simpl. rewrite set_nextTimestamp_same.
    repeat split; auto using not_raised_refl.
  - cbn [processEvents]. unfold bind, gets. cbn [bind_res].
    fold (parsed_nextTimestamp event).
    rewrite map_cons, last_cons_default.
    destruct (ltb (parsed_nextTimestamp event) (nextTimestamp s)) eqn:E;
      cbn [modify ret bind_res].
    + destruct (IH (Some (fst event))
                   (set_nextTimestamp (parsed_nextTimestamp event) s))
        as (n & Heq & Hn & Hin & Hall).
      exists n. rewrite Heq. cbn in Hn, Hin.
      repeat split.
      * eapply not_raised_trans; [right; exact E | exact Hn].
      * destruct Hin as [<- | Hin]; [right; left; reflexivity | right; right; exact Hin].
      * constructor; [|exact Hall].
        eapply not_raised_not_below; [exact Hn | apply ltb_irrefl].
    + destruct (IH (Some (fst event)) s) as (n & Heq & Hn & Hin & Hall).
      exists n. rewrite Heq.
      repeat split.
      * exact Hn.
      * destruct Hin as [<- | Hin]; [left; reflexivity | right; right; exact Hin].
      * constructor; [|exact Hall].
        eapply not_raised_not_below; [exact Hn | exact E].
Qed.

End Batch.

(* ================================================================== *)
(** ** Properties of the points of a method *)

Create HintDb ok.
Create HintDb guarded.

(** [P] is a property of the points a method goes through and [pre] what it
    takes of the instance for a method to be started. *)
Section Points.

Context {imports : Imports}.

Variable pre : QueueScheduler -> Prop.
Variable P : forall A : Type, res A -> Prop.

Hypothesis pre_close : forall s, pre s -> pre (fst (close s)).
Hypothesis pre_emitted : forall ev s, pre s -> pre (push_emitted ev s).
Hypothesis pre_nextTimestamp : forall v s, pre s -> pre (set_nextTimestamp v s).
Hypothesis pre_running : forall b s, pre s -> pre (set_running b s).
Hypothesis P_ret : forall A s (a : A), pre s -> P (Ret s a).
Hypothesis P_throw : forall A s e, pre s -> P (Throw (A := A) s e).
Hypothesis ret_pre : forall A s (a : A), P (Ret s a) -> pre s.
Hypothesis throw_pre : forall A s e, P (Throw (A := A) s e) -> pre s.
Hypothesis P_stuck : forall A, P (Stuck (A := A)).
Hypothesis P_spin : forall A, P (Spin (A := A)).
Hypothesis P_await :
  forall A s c (k : answer -> QueueScheduler -> res A),
    pre s -> is_blocking_read c = false -> P (Await s c k).
Hypothesis P_bind :
  forall A B s c (k : answer -> QueueScheduler -> res A) (f : A -> M B),
    P (Await s c k) -> P (Await s c (fun a s' => bind_res (k a s') f)).

Local Abbreviation ok := (ok pre P).

Lemma pre_interfere (c : call) (s s' : QueueScheduler) :
  interfere c s s' -> pre s -> pre s'.
Proof. intros [c' s0 | c' s0 _]; auto. Qed.

Lemma ok_ret {A : Type} (a : A) : ok (ret a).
Proof. intros s Hs. simpl. auto. Qed.

Lemma ok_throw {A : Type} (e : Error) : ok (throw (A := A) e).
Proof. intros s Hs. simpl. auto. Qed.

Lemma ok_spin {A : Type} : ok (spin (A := A)).
Proof. intros s Hs. simpl. auto. Qed.

Lemma ok_gets {A : Type} (f : QueueScheduler -> A) : ok (gets f).
Proof. intros s Hs. simpl. auto. Qed.

Lemma ok_modify (g : QueueScheduler -> QueueScheduler) :
  (forall s, pre s -> pre (g s)) -> ok (modify g).
Proof. intros Hg s Hs. simpl. auto. Qed.

Lemma ok_bind {A B : Type} (m : M A) (f : A -> M B) :
  ok m -> (forall a, ok (f a)) -> ok (bind m f).
Proof.
  intros Hm Hf s Hs. unfold bind.
  eapply always_bind_res with (1 := Hm s Hs); auto.
  - intros s1 a H1. apply Hf. eapply ret_pre, H1.
  - intros s1 e H1. apply P_throw. eapply throw_pre, H1.
Qed.

Lemma ok_await (c : call) : is_blocking_read c = false -> ok (await_ c).
Proof.
  intros Hc s Hs. simpl. split; [auto|].
  intros a s' Hi. apply pre_interfere in Hi; [|exact Hs].
  destruct a; simpl; auto.
Qed.

Lemma ok_await_delaySet (c : call) : is_blocking_read c = false -> ok (await_delaySet c).
Proof.
  intros Hc s Hs. simpl. split; [auto|].
  intros a s' Hi. apply pre_interfere in Hi; [|exact Hs].
  destruct a; simpl; auto.
Qed.

Lemma ok_await_stalled (c : call) : is_blocking_read c = false -> ok (await_stalled c).
Proof.
  intros Hc s Hs. simpl. split; [auto|].
  intros a s' Hi. apply pre_interfere in Hi; [|exact Hs].
  destruct a; simpl; auto.
Qed.

Lemma ok_await_stream (c : call) : is_blocking_read c = false -> ok (await_stream c).
Proof.
  intros Hc s Hs. simpl. split; [auto|].
  intros a s' Hi. apply pre_interfere in Hi; [|exact Hs].
  destruct a; simpl; auto.
Qed.

Lemma ok_now : ok now.
Proof.
  intros s Hs. simpl. split; [auto|].
  intros a s' Hi. apply pre_interfere in Hi; [|exact Hs].
  destruct a; simpl; auto.
Qed.

Lemma ok_forEach {A : Type} (l : list A) (f : A -> M unit) :
  (forall x, ok (f x)) -> ok (forEach l f).
Proof.
  intros Hf. induction l as [|x l IH]; simpl.
  - apply ok_ret.
  - apply ok_bind; [apply Hf | intros _; exact IH].
Qed.

Lemma ok_destructure {A B : Type} (v : option (A * B)) : ok (destructure v).
Proof. destruct v; [apply ok_ret | apply ok_throw]. Qed.

(** The guarded [setname] of [run], lines 135-144. *)
Lemma ok_setname (name : string) (h : Error -> M unit) :
  (forall e, ok (h e)) -> ok (try_catch (await_ (client_setname name)) h).
Proof.
  intros Hh s Hs. unfold try_catch. simpl. split; [auto|].
  intros a s' Hi. apply pre_interfere in Hi; [|exact Hs].
  destruct a; simpl; auto. apply Hh, Hi.
Qed.

Local Hint Resolve ok_ret ok_throw ok_spin ok_gets ok_modify ok_await ok_await_delaySet
  ok_await_stalled ok_await_stream ok_now ok_destructure : ok.

Ltac ok_step :=
  match goal with
  | |- ok (bind _ _) => apply ok_bind; [ | intro]
  | |- ok (try_catch (await_ (client_setname _)) _) => apply ok_setname; intro
  | |- ok (forEach _ _) => apply ok_forEach; intro
  | |- ok (checkConnectionError _) => unfold checkConnectionError
  | |- ok (emit _) => apply ok_modify; intros
  | |- ok (let _ := _ in _) => cbv zeta
  | |- ok (if ?b then _ else _) => destruct b eqn:?
  | |- ok (let '(_, _) := ?x in _) => destruct x
  | |- ok (match ?x with Some _ => _ | None => _ end) => destruct x
  | |- ok _ => solve [auto with ok]
  | |- pre _ => solve [auto]
  | |- is_blocking_read _ = false => reflexivity
  end.

Lemma ok_updateDelaySet (timestamp : number) : ok (updateDelaySet timestamp).
Proof. unfold updateDelaySet. repeat ok_step. Qed.

Lemma ok_moveStalledJobsToWait : ok moveStalledJobsToWait.
Proof. unfold moveStalledJobsToWait. repeat ok_step. Qed.

Lemma ok_processEvents (events : list StreamEntry) (streamLastId : cursor) :
  ok (processEvents events streamLastId).
Proof.
  revert streamLastId.
  induction events as [|event events IH]; intros streamLastId; simpl.
  - auto with ok.
  - repeat ok_step; apply IH.
Qed.

Local Hint Resolve ok_updateDelaySet ok_moveStalledJobsToWait ok_processEvents : ok.

Lemma ok_applyData (key : string) (data : option StreamReadRaw) (streamLastId : cursor) :
  ok (applyData key data streamLastId).
Proof.
  unfold applyData. destruct data as [[|stream data]|]; auto with ok.
  repeat ok_step.
Qed.

Lemma ok_dueTimePromotion (streamLastId : cursor) : ok (dueTimePromotion streamLastId).
Proof. unfold dueTimePromotion. repeat ok_step. Qed.

Local Hint Resolve ok_applyData ok_dueTimePromotion : ok.

(** With the blocking read of [readDelayedData] dealt with, the loop. *)
Hypothesis ok_readDelayedData :
  forall key streamLastId blockTime, ok (readDelayedData key streamLastId blockTime).

Local Hint Resolve ok_readDelayedData : ok.

Lemma ok_iteration (key : string) (streamLastId : cursor) :
  ok (iteration key streamLastId).
Proof. unfold iteration, readAndApply. repeat ok_step. Qed.

Local Hint Resolve ok_iteration : ok.

Lemma ok_loop (fuel : nat) (key : string) (streamLastId : cursor) :
  ok (loop fuel key streamLastId).
Proof.
  revert streamLastId. induction fuel as [|fuel IH]; intros streamLastId; simpl.
  - auto with ok.
  - repeat ok_step.
Qed.

Local Hint Resolve ok_loop : ok.

Lemma ok_run_body (fuel : nat) : ok (run_body fuel).
Proof. unfold run_body. repeat ok_step. Qed.

End Points.


(* ================================================================== *)
(** ** Properties of the loop *)

Section Properties.

Context {imports : Imports}.

(* ------------------------------------------------------------------ *)
(** *** Entering [run] and calling [close] *)

Lemma run_running (fuel : nat) (s : QueueScheduler) :
  running s = true ->
  run fuel s = Throw s (mkError "Queue Scheduler is already running.").
Proof. intros H. unfold run, bind, gets. simpl. rewrite H. reflexivity. Qed.

Lemma run_not_running (fuel : nat) (s : QueueScheduler) :
  running s = false ->
  run fuel s =
    catch_res (run_body fuel s) (fun error => modify (set_running false) ;; throw error).
Proof. intros H. unfold run, bind, gets. simpl. rewrite H. reflexivity. Qed.

Lemma close_nextTimestamp (s : QueueScheduler) :
  nextTimestamp (fst (close s)) = nextTimestamp s.
Proof. unfold close. destruct (closing s), (isBlocked s); reflexivity. Qed.


Lemma close_pending (s : QueueScheduler) (p : Promise) :
  closing s = Some p -> close s = (s, p).
Proof. intros H. unfold close. rewrite H. reflexivity. Qed.

Lemma close_sets_closing (s : QueueScheduler) :
  closing (fst (close s)) = Some (snd (close s)).
Proof.
  unfold close. destruct (closing s) eqn:H; [exact H|].
  destruct (isBlocked s); reflexivity.
Qed.

(* ------------------------------------------------------------------ *)
(** *** The block time *)

Lemma Math_max_zero (d : number) :
  is_NaN d = false ->
  is_NaN (Math_max d (of_Z 0)) = false /\ leb (of_Z 0) (Math_max d (of_Z 0)) = true.
Proof.
  destruct d as [| |x|]; simpl; try discriminate; intros _; auto.
  destruct (x ?= inject_Z 0)%Q eqn:E; simpl; split; trivial;
    apply Qle_bool_iff.
  - apply Qeq_alt in E. rewrite E. apply Qle_refl.
  - apply Qgt_alt in E. apply Qlt_le_weak, E.
Qed.

Lemma Math_min_below (q : Q) (m : number) :
  (0 <= q)%Q -> leb (of_Z 0) m = true ->
  exists r, Math_min (Fin q) m = Fin r /\ (0 <= r)%Q /\ (r <= q)%Q.
Proof.
  intros Hq Hm. destruct m as [| |x|]; simpl in Hm; try discriminate.
  - apply Qle_bool_iff in Hm. simpl.
    destruct (x ?= q)%Q eqn:E.
    + exists q. repeat split; auto using Qle_refl.
    + exists x. apply Qlt_alt in E. repeat split; auto using Qlt_le_weak.
    + exists q. repeat split; auto using Qle_refl.
  - exists q. simpl. repeat split; auto using Qle_refl.
Qed.

(** For a stalled interval that is finite and not negative, the block time
    lies between zero and the rounded interval. *)
Lemma blockTime_bounds (q : Q) (nextTimestamp now : number) :
  (0 <= q)%Q -> is_NaN nextTimestamp = false -> is_finite now = true ->
  leb (of_Z 0) (blockTime (Some (Fin q)) nextTimestamp now) = true
  /\ leb (blockTime (Some (Fin q)) nextTimestamp now) (Math_round (Fin q)) = true.
Proof.
  intros Hq Hn Hf. unfold blockTime, ToNumber.
  assert (Hd : is_NaN (sub nextTimestamp now) = false).
  { destruct nextTimestamp, now; simpl in *; congruence. }
  destruct (@Math_max_zero _ Hd) as [_ Hm].
  destruct (@Math_min_below q _ Hq Hm) as (r & -> & Hr0 & Hrq).
  split.
  - rewrite <- (Math_round_of_Z 0). apply Math_round_mono, Hr0.
  - apply Math_round_mono, Hrq.
Qed.

(** With no delayed job known, a positive integer interval is the block
    time (the sum of the interval and the current time is below
    [MAX_VALUE], as it is for times in milliseconds). *)
Lemma blockTime_idle (z : Z) (t : Q) :
  (0 < z)%Z -> (inject_Z z + t <= inject_Z (2 ^ 1024 - 2 ^ 971))%Q ->
  blockTime (Some (of_Z z)) MAX_VALUE (Fin t) = of_Z z.
Proof.
  intros Hz Ht. unfold blockTime, ToNumber, MAX_VALUE, of_Z.
  set (m := inject_Z (2 ^ 1024 - 2 ^ 971)) in *.
  assert (Hz' : (0 < inject_Z z)%Q).
  { change 0%Q with (inject_Z 0). rewrite <- Zlt_Qlt. exact Hz. }
  assert (Hd : (inject_Z z <= m - t)%Q).
  { apply Qplus_le_l with (z := t). ring_simplify. exact Ht. }
  cbn [sub]. unfold Math_max.
  rewrite (proj2 (ltb_Fin_false (m - t) (inject_Z 0))).
  2:{ apply Qlt_le_weak. eapply Qlt_le_trans; [exact Hz' | exact Hd]. }
  unfold Math_min.
  rewrite (proj2 (ltb_Fin_false (m - t) (inject_Z z))) by exact Hd.
  apply Math_round_of_Z.
Qed.

Lemma positive_truthy (n : number) : ltb (of_Z 0) n = true -> truthy n = true.
Proof.
  destruct n as [| |q|]; simpl; try discriminate; try reflexivity.
  destruct (inject_Z 0 ?= q)%Q eqn:E; try discriminate. intros _.
  apply Qlt_alt in E.
  destruct (Qeq_bool q 0) eqn:E0; [|reflexivity].
  apply Qeq_bool_iff in E0. rewrite E0 in E. exfalso. exact (Qlt_irrefl _ E).
Qed.

Lemma of_Z_truthy (z : Z) : (0 < z)%Z -> truthy (of_Z z) = true.
Proof.
  intros Hz. apply positive_truthy. apply ltb_Fin. rewrite <- Zlt_Qlt. exact Hz.
Qed.

(* ------------------------------------------------------------------ *)
(** *** The stall sweep and the read *)

Lemma forEach_emit {A : Type} (f : A -> Event) (l : list A) (s : QueueScheduler) :
  forEach l (fun x => emit (f x)) s = Ret (emit_all (map f l) s) tt.
Proof.
  revert s. induction l as [|x l IH]; intros s; [reflexivity|].
  simpl. unfold bind, emit, modify. simpl. apply IH.
Qed.

Lemma emit_all_app (evs1 evs2 : list Event) (s : QueueScheduler) :
  emit_all evs2 (emit_all evs1 s) = emit_all (evs1 ++ evs2) s.
Proof. unfold emit_all. rewrite fold_left_app. reflexivity. Qed.

Lemma emit_all_fields (evs : list Event) (s : QueueScheduler) :
  emit_all evs s =
    mkQueueScheduler (opts_stalledInterval s) (keys_delay s) (nextTimestamp s)
      (isBlocked s) (running s) (closing s) (emitted s ++ evs) (promises s).
Proof.
  revert s. induction evs as [|ev evs IH]; intros s.
  - simpl. rewrite app_nil_r. destruct s; reflexivity.
  - simpl. rewrite IH. simpl. rewrite <- app_assoc. reflexivity.
Qed.

Lemma moveStalledJobsToWait_resolved
      (s s' : QueueScheduler) (failed stalled : list string) :
  closing s = None ->
  resume (moveStalledJobsToWait s) (resolved_stalled failed stalled) s'
    = Ret (emit_all (failed_events failed ++ stalled_events stalled) s') tt.
Proof.
  intros Hc. unfold moveStalledJobsToWait, bind, gets. simpl. rewrite Hc. simpl.
  unfold bind. rewrite forEach_emit. simpl. rewrite forEach_emit.
  rewrite emit_all_app. reflexivity.
Qed.

(** The read that an iteration issues, when nothing happens to the instance
    during the stall sweep. *)
Lemma readAndApply_read
      (key : string) (streamLastId : cursor) (s : QueueScheduler)
      (failed stalled : list string) (now' : number) :
  closing s = None ->
  pending (resume_same
             (resume_same (readAndApply key streamLastId s)
                          (resolved_stalled failed stalled))
             (resolved_number now'))
  = Some (let blockTime' := blockTime (opts_stalledInterval s) (nextTimestamp s) now' in
          if truthy blockTime'
          then xread_BLOCK blockTime' key streamLastId
          else xread key streamLastId).
Proof.
  intros Hc.
  unfold readAndApply, checkConnectionError, bind at 1.
  assert (E : moveStalledJobsToWait s =
              Await s Scripts_moveStalledJobsToWait
                    (fun a s' => resume (moveStalledJobsToWait s) a s')).
  { unfold moveStalledJobsToWait, bind, gets. simpl. rewrite Hc. reflexivity. }
  rewrite E. cbn [bind_res resume_same].
  rewrite (@moveStalledJobsToWait_resolved s s failed stalled Hc).
  rewrite emit_all_fields.
  unfold bind, gets, now. cbn [bind_res resume_same].
  unfold readDelayedData, bind, gets. cbn [bind_res]. cbn [closing]. rewrite Hc.
  cbn [is_set negb opts_stalledInterval nextTimestamp].
  destruct (truthy (blockTime (opts_stalledInterval s) (nextTimestamp s) now'));
    reflexivity.
Qed.

Lemma fatal_read_readDelayedData
      (key : string) (streamLastId : cursor) (blockTime : number) :
  ok (fun _ => True) (fatal_read (set_isBlocked false))
     (readDelayedData key streamLastId blockTime).
Proof.
  intros s _. unfold readDelayedData, bind, gets. simpl.
  destruct (closing s); simpl; [auto|].
  destruct (truthy blockTime); simpl.
  - split.
    + intros _ err s' He. simpl. rewrite He. reflexivity.
    + intros a s' _. destruct a; simpl; auto.
      destruct (isNotConnectionError err); simpl; auto.
      split; [discriminate|]. intros a s2 _. destruct a; simpl; auto.
  - split; [discriminate|]. intros a s' _. destruct a; simpl; auto.
Qed.


(** Wherever [run] waits for the blocking read, a rejection that is not of
    the connection class ends [run]: it throws the error, with [isBlocked]
    and [running] reset. *)
Lemma fatal_read_run (fuel : nat) (s : QueueScheduler) :
  always (fatal_read (fun s' => set_running false (set_isBlocked false s')) (A := unit))
         (run fuel s).
Proof.
  destruct (running s) eqn:Hr.
  - rewrite (run_running fuel s Hr). simpl. auto.
  - rewrite (run_not_running fuel s Hr).
    eapply always_catch_res
      with (P := fatal_read (set_isBlocked false) (A := unit)); simpl; auto.
    + apply (@ok_run_body _ (fun _ => True) (fatal_read (set_isBlocked false)));
        simpl; auto.
      * intros A _ c k _ Hc Hc'. congruence.
      * intros A B _ c k f H Hc err s' He. rewrite (H Hc err s' He). reflexivity.
      * apply fatal_read_readDelayedData.
    + intros s0 c k H Hc err s' He. rewrite (H Hc err s' He). reflexivity.
Qed.


(* ------------------------------------------------------------------ *)
(** *** An invariant of [nextTimestamp] *)

(** [nextTimestamp] is never [NaN]: a timestamp is only adopted from the
    promotion operation when it is truthy and only taken from an entry when
    it is below the current one. *)
Lemma nextTimestamp_never_NaN (fuel : nat) :
  keeps (fun s0 s1 => is_NaN (nextTimestamp s0) = false ->
                      is_NaN (nextTimestamp s1) = false)
        (run fuel).
Proof.
  apply keeps_run; auto.
  - intros s0. rewrite close_nextTimestamp. auto.
  - intros v s0 H _. apply ltb_not_NaN in H. apply H.
  - intros v s0 H _. destruct v; simpl in *; congruence.
Qed.

(* ------------------------------------------------------------------ *)
(** *** The properties *)

(** Within the promotion step [nextTimestamp] is as it was found until the
    step returns. *)
Lemma dueTimePromotion_not_raised_before_return
      (streamLastId : cursor) (s : QueueScheduler) (n0 : number) :
  not_raised n0 (nextTimestamp s) ->
  always (not_raised_before_return n0 (A := cursor)) (dueTimePromotion streamLastId s).
Proof.
  intros H.
  unfold dueTimePromotion, updateDelaySet, checkConnectionError, bind, gets, now.
  simpl. split; [exact H|]. intros a s' Hi.
  assert (Hs' : nextTimestamp s' = nextTimestamp s).
  { destruct Hi; [reflexivity | apply close_nextTimestamp]. }
  destruct a; simpl; auto.
  destruct (leb (sub (nextTimestamp s') n) (of_Z 0)); simpl; auto.
  destruct (closing s'); simpl; auto.
  split; [rewrite Hs'; exact H|]. intros a s2 Hi2.
  assert (Hs2 : nextTimestamp s2 = nextTimestamp s).
  { rewrite <- Hs'. destruct Hi2; [reflexivity | apply close_nextTimestamp]. }
  destruct a as [ | m | r | failed stalled | data | err]; simpl; auto.
  - destruct r as [[v id]|]; simpl.
    + destruct (truthy_opt v); simpl; auto.
    + split; [rewrite Hs2; exact H | exact I].
  - split; [rewrite Hs2; exact H | exact I].
Qed.

(** C1, as the code has it.  Processing the batch of a read never raises
    [nextTimestamp]: the loop over the entries returns with [nextTimestamp]
    equal to its prior value or below it, equal to the prior value or to the
    parsed field of one of the entries, and with no entry's parsed field
    below it, which makes it the minimum of the prior value and the parsed
    fields (a field that does not parse is [NaN] and is below nothing).
    Nothing in an iteration before the promotion step raises it: at every
    point that [readAndApply] reaches, [nextTimestamp] is its value at the
    start of the iteration or below.  It is raised or reset only where the
    promotion step returns: at every call that an iteration waits for, the
    calls of the promotion step included, and wherever the iteration throws,
    [nextTimestamp] is at or below its value at the start of the iteration.
    The promotion step leaves it as it is when no job is due; when a job is
    due and a shutdown is pending, it resets it to [MAX_VALUE] without
    calling the promotion operation; otherwise it calls the operation and,
    whatever the answer, either adopts the timestamp returned, when that is
    truthy, or resets to [MAX_VALUE], when that is zero or none, or throws
    with [nextTimestamp] untouched. *)
Theorem batch_never_raises_nextTimestamp
        (key : string) (streamLastId : cursor) (events : list StreamEntry)
        (s : QueueScheduler) :
  (exists s' streamLastId',
      processEvents events streamLastId s = Ret s' streamLastId'
      /\ not_raised (nextTimestamp s) (nextTimestamp s')
      /\ In (nextTimestamp s') (nextTimestamp s :: map parsed_nextTimestamp events)
      /\ Forall (fun event => ltb (parsed_nextTimestamp event) (nextTimestamp s') = false)
                events)
  /\ keeps (fun s0 s1 => not_raised (nextTimestamp s0) (nextTimestamp s1))
           (readAndApply key streamLastId)
  /\ always (not_raised_before_return (nextTimestamp s) (A := cursor))
            (iteration key streamLastId s)
  /\ (forall now',
        let due := leb (sub (nextTimestamp s) now') (of_Z 0) in
        let p := resume_same (dueTimePromotion streamLastId s) (resolved_number now') in
        pending (dueTimePromotion streamLastId s) = Some Date_now
        /\ state_of (dueTimePromotion streamLastId s) = Some s
        /\ (due = false -> p = Ret s streamLastId)
        /\ (due = true -> closing s <> None ->
            p = Ret (set_nextTimestamp MAX_VALUE s) streamLastId)
        /\ (due = true -> closing s = None ->
            pending p = Some (Scripts_updateDelaySet now')
            /\ state_of p = Some s
            /\ forall a s', promotion_outcome streamLastId a s' (resume p a s'))).
Proof.
  assert (Hk : keeps (fun s0 s1 => not_raised (nextTimestamp s0) (nextTimestamp s1))
                     (readAndApply key streamLastId)).
  { apply keeps_readAndApply.
    + intros s0. apply not_raised_refl.
    + intros s1 s2 s3. apply not_raised_trans.
    + intros s0. rewrite close_nextTimestamp. apply not_raised_refl.
    + intros b s0. apply not_raised_refl.
    + intros ev s0. apply not_raised_refl.
    + intros v s0 H. right. exact H. }
  split; [|split; [exact Hk|split]].
  - destruct (processEvents_spec events streamLastId s) as (n & Heq & Hn & Hin & Hall).
    eexists (set_nextTimestamp n s), _. split; [exact Heq|]. simpl. auto.
  - unfold iteration, bind.
    eapply always_bind_res with (1 := Hk s); try exact I.
    + intros s1 a H1. apply dueTimePromotion_not_raised_before_return.
      apply H1. reflexivity.
    + intros s1 e H1. simpl. apply H1. reflexivity.
    + intros s1 c k H1. simpl. apply H1. reflexivity.
  - intros now'. cbv zeta.
    unfold dueTimePromotion, updateDelaySet, checkConnectionError, bind, gets, now.
    cbn [bind_res resume_same pending state_of].
    split; [reflexivity|]. split; [reflexivity|].
    destruct (leb (sub (nextTimestamp s) now') (of_Z 0)) eqn:Hdue;
      cbn [bind_res].
    + split; [discriminate|].
      destruct (closing s) as [pr|] eqn:Hc; cbn [is_set negb bind_res].
      * split; [intros _ _; reflexivity | intros _ H; discriminate H].
      * split; [intros _ H; congruence|]. intros _ _.
        split; [reflexivity|]. split; [reflexivity|].
        intros a s'.
        destruct a as [ | m | r | failed stalled | data | err]; simpl; auto.
        destruct r as [[v id]|]; simpl; [|reflexivity].
        destruct (truthy_opt v) eqn:Hv; simpl;
          exists v, id; (split; [reflexivity|]); rewrite Hv;
          [left | right]; repeat split.
    + split; [intros _; reflexivity|].
      split; intros H; discriminate H.
Qed.

(** C2.  For every non-empty batch, the loop over its entries returns with
    the stream cursor on the position of the last entry; when the positions
    of the batch are pairwise distinct, as strictly increasing positions are,
    that is the position of no earlier entry. *)
Theorem cursor_ends_on_last_entry
        (events : list StreamEntry) (streamLastId : cursor) (s : QueueScheduler)
        (default : StreamEntry) :
  (0 < List.length events)%nat ->
  exists s',
    processEvents events streamLastId s = Ret s' (Some (fst (last events default)))
    /\ (NoDup (map fst events) ->
        forall i id, (S i < List.length events)%nat ->
                     nth_error (map fst events) i = Some id ->
                     Some id <> Some (fst (last events default))).
Proof.
  intros Hlen.
  assert (Hne : events <> []) by (intros ->; simpl in Hlen; lia).
  clear Hlen.
  destruct (processEvents_spec events streamLastId s) as (n & Heq & _).
  exists (set_nextTimestamp n s). split.
  - rewrite Heq. f_equal.
    clear Heq. revert streamLastId.
    induction events as [|e events IH]; [contradiction|]. intros streamLastId.
    destruct events as [|e' events]; [reflexivity|].
    change (last (e :: e' :: events) default) with (last (e' :: events) default).
    rewrite map_cons, last_cons_default. apply IH. discriminate.
  - intros Hnd i id Hi Hnth [= ->].
    assert (Hlast : nth_error (map fst events) (List.length events - 1)
                    = Some (fst (last events default))).
    { clear - Hne. induction events as [|e events IH]; [contradiction|].
      destruct events as [|e' events]; [reflexivity|].
      change (last (e :: e' :: events) default) with (last (e' :: events) default).
      rewrite <- IH by discriminate.
      simpl. rewrite Nat.sub_0_r. reflexivity. }
    rewrite <- Hlast in Hnth.
    apply (proj1 (NoDup_nth_error _) Hnd) in Hnth.
    + lia.
    + rewrite length_map. unfold StreamEntry in *. lia.
Qed.

(** C3.  For a stalled interval of [z] milliseconds, [z] a positive integer,
    every [nextTimestamp] (however far in the past or in the future, the
    infinities included) and every current time, the block time is
    [round(min(stalledInterval, max(nextTimestamp - now, 0)))] and lies in
    the closed interval from 0 to [stalledInterval]; it is the block time of
    the read that the iteration issues, which is the blocking read unless
    the block time is zero. *)
Theorem blockTime_within_stalledInterval (z : Z) (nextTimestamp' now' : number) :
  (0 < z)%Z -> is_NaN nextTimestamp' = false -> is_finite now' = true ->
  blockTime (Some (of_Z z)) nextTimestamp' now'
    = Math_round (Math_min (of_Z z) (Math_max (sub nextTimestamp' now') (of_Z 0)))
  /\ leb (of_Z 0) (blockTime (Some (of_Z z)) nextTimestamp' now') = true
  /\ leb (blockTime (Some (of_Z z)) nextTimestamp' now') (of_Z z) = true
  /\ forall key streamLastId s failed stalled,
       closing s = None ->
       opts_stalledInterval s = Some (of_Z z) ->
       nextTimestamp s = nextTimestamp' ->
       pending (resume_same
                  (resume_same (readAndApply key streamLastId s)
                               (resolved_stalled failed stalled))
                  (resolved_number now'))
       = Some (if truthy (blockTime (Some (of_Z z)) nextTimestamp' now')
               then xread_BLOCK (blockTime (Some (of_Z z)) nextTimestamp' now')
                                key streamLastId
               else xread key streamLastId).
Proof.
  intros Hz Hn Hf. split; [reflexivity|].
  assert (Hq : (0 <= inject_Z z)%Q).
  { change 0%Q with (inject_Z 0). rewrite <- Zle_Qle. lia. }
  destruct (@blockTime_bounds (inject_Z z) nextTimestamp' now' Hq Hn Hf) as [H0 H1].
  split; [exact H0|]. split.
  - change (Fin (inject_Z z)) with (of_Z z) in H1.
    rewrite Math_round_of_Z in H1. exact H1.
  - intros key streamLastId s failed stalled Hc Ho Hs.
    rewrite readAndApply_read by exact Hc. cbv zeta. rewrite Ho, Hs. reflexivity.
Qed.

(** C4, as the code has it.  The promotion step reads the clock and, with
    [now] the time read: the promotion operation is called, with [now], if
    and only if [nextTimestamp - now <= 0] and no shutdown is pending; when
    [nextTimestamp - now <= 0] does not hold the step changes nothing; when
    it holds and a shutdown is pending, the operation is not called and
    [nextTimestamp] is reset to [MAX_VALUE] with the cursor unchanged; when
    the operation returns a timestamp that is truthy, [nextTimestamp] and
    the cursor are replaced by the returned pair, and when it returns zero or
    none, [nextTimestamp] is reset to [MAX_VALUE] and the cursor is
    unchanged.  With [nextTimestamp] at [MAX_VALUE] the next iteration, for a
    stalled interval of [z] milliseconds ([z] a positive integer), issues the
    blocking read with block time [z]. *)
Theorem promotion_step
        (key : string) (streamLastId : cursor) (s : QueueScheduler) (now' : number) :
  let due := leb (sub (nextTimestamp s) now') (of_Z 0) in
  let p := resume_same (dueTimePromotion streamLastId s) (resolved_number now') in
  pending (dueTimePromotion streamLastId s) = Some Date_now
  /\ (pending p = Some (Scripts_updateDelaySet now') <-> due = true /\ closing s = None)
  /\ (due = false -> p = Ret s streamLastId)
  /\ (due = true -> closing s <> None ->
      p = Ret (set_nextTimestamp MAX_VALUE s) streamLastId)
  /\ (due = true -> closing s = None ->
      forall s' v id,
        resume p (resolved_delaySet (Some (v, id))) s'
        = if truthy_opt v
          then Ret (set_nextTimestamp (ToNumber v) s') id
          else Ret (set_nextTimestamp MAX_VALUE s') streamLastId)
  /\ (forall s1 failed stalled z t,
        closing s1 = None -> nextTimestamp s1 = MAX_VALUE ->
        opts_stalledInterval s1 = Some (of_Z z) -> (0 < z)%Z ->
        (inject_Z z + t <= inject_Z (2 ^ 1024 - 2 ^ 971))%Q ->
        pending (resume_same
                   (resume_same (readAndApply key streamLastId s1)
                                (resolved_stalled failed stalled))
                   (resolved_number (Fin t)))
        = Some (xread_BLOCK (of_Z z) key streamLastId)).
Proof.
  intros due p. subst due p.
  assert (Hpending : forall s',
             closing s' = None ->
             leb (sub (nextTimestamp s') now') (of_Z 0) = true ->
             pending (resume_same (dueTimePromotion streamLastId s')
                                  (resolved_number now'))
             = Some (Scripts_updateDelaySet now')
             /\ forall s'' v id,
                 resume (resume_same (dueTimePromotion streamLastId s')
                                     (resolved_number now'))
                        (resolved_delaySet (Some (v, id))) s''
                 = if truthy_opt v
                   then Ret (set_nextTimestamp (ToNumber v) s'') id
                   else Ret (set_nextTimestamp MAX_VALUE s'') streamLastId).
  { intros s' Hc Hdue.
    unfold dueTimePromotion, updateDelaySet, checkConnectionError, bind, gets, now.
    cbn [bind_res resume_same]. rewrite Hdue, Hc. cbn.
    split; [reflexivity|]. intros s'' v id. destruct (truthy_opt v); reflexivity. }
  assert (Hclosing : forall s' pr,
             closing s' = Some pr ->
             leb (sub (nextTimestamp s') now') (of_Z 0) = true ->
             resume_same (dueTimePromotion streamLastId s') (resolved_number now')
             = Ret (set_nextTimestamp MAX_VALUE s') streamLastId).
  { intros s' pr Hc Hdue.
    unfold dueTimePromotion, updateDelaySet, checkConnectionError, bind, gets, now.
    cbn [bind_res resume_same]. rewrite Hdue, Hc. reflexivity. }
  assert (Hnotdue :
             leb (sub (nextTimestamp s) now') (of_Z 0) = false ->
             resume_same (dueTimePromotion streamLastId s) (resolved_number now')
             = Ret s streamLastId).
  { intros Hdue.
    unfold dueTimePromotion, updateDelaySet, checkConnectionError, bind, gets, now.
    cbn [bind_res resume_same]. rewrite Hdue. reflexivity. }
  split; [reflexivity|].
  split; [|split; [exact Hnotdue|split; [|split]]].
  - destruct (leb (sub (nextTimestamp s) now') (of_Z 0)) eqn:Hdue;
      destruct (closing s) as [pr|] eqn:Hc.
    + rewrite (Hclosing s pr Hc Hdue). split; [discriminate | intros [_ H]; discriminate].
    + rewrite (proj1 (Hpending s Hc Hdue)). split; auto.
    + rewrite (Hnotdue eq_refl). split; [discriminate | intros [H _]; discriminate].
    + rewrite (Hnotdue eq_refl). split; [discriminate | intros [H _]; discriminate].
  - intros Hdue Hc. destruct (closing s) as [pr|] eqn:Hc'; [|congruence].
    apply (Hclosing s pr Hc' Hdue).
  - intros Hdue Hc. apply (Hpending s Hc Hdue).
  - intros s1 failed stalled z t Hc1 Hn1 Ho1 Hz Ht.
    rewrite readAndApply_read by exact Hc1. cbv zeta.
    rewrite Hn1, Ho1, (blockTime_idle Hz Ht), (of_Z_truthy Hz). reflexivity.
Qed.

(** C5.  Unless a shutdown is pending the sweep calls the stall-recovery
    operation, and for every result [(failed, stalled)] of it the sweep
    returns having emitted, after what had been emitted before, one [failed]
    event per entry of [failed], with the reason "job stalled more than
    allowable limit" and the prior state "active", followed by one [stalled]
    event per entry of [stalled], with the prior state "active". *)
Theorem stall_sweep_emits_failed_then_stalled
        (s : QueueScheduler) (failed stalled : list string) :
  closing s = None ->
  pending (moveStalledJobsToWait s) = Some Scripts_moveStalledJobsToWait
  /\ forall s', exists s'',
       resume (moveStalledJobsToWait s) (resolved_stalled failed stalled) s' = Ret s'' tt
       /\ emitted s'' =
            emitted s'
            ++ map (fun jobId =>
                      failed_event jobId (mkError "job stalled more than allowable limit")
                        "active") failed
            ++ map (fun jobId => stalled_event jobId "active") stalled.
Proof.
  intros Hc. split.
  - unfold moveStalledJobsToWait, bind, gets. simpl. rewrite Hc. reflexivity.
  - intros s'. eexists. split.
    + apply moveStalledJobsToWait_resolved, Hc.
    + rewrite emit_all_fields. reflexivity.
Qed.

(** C6.  In the blocking path of the read (no shutdown pending, block time
    above zero) the blocking read is issued; when it is rejected with an
    error of the connection class, the error is swallowed: the method waits
    for [delay(DELAY_TIME_5)] and then returns no data; when it is rejected
    with any other error, the method throws that error, and wherever [run]
    waits for the blocking read such a rejection makes [run] itself throw the
    error, which ends the loop. *)
Theorem blocking_read_swallows_connection_errors
        (key : string) (streamLastId : cursor) (blockTime : number)
        (s : QueueScheduler) :
  closing s = None -> ltb (of_Z 0) blockTime = true ->
  pending (readDelayedData key streamLastId blockTime s)
    = Some (xread_BLOCK blockTime key streamLastId)
  /\ (forall err s1,
         isNotConnectionError err = false ->
         pending (resume (readDelayedData key streamLastId blockTime s) (rejected err) s1)
           = Some (delay DELAY_TIME_5)
         /\ forall s2,
             resume (resume (readDelayedData key streamLastId blockTime s)
                            (rejected err) s1) resolved s2
               = Ret (set_isBlocked false s2) None)
  /\ (forall err s1,
         isNotConnectionError err = true ->
         resume (readDelayedData key streamLastId blockTime s) (rejected err) s1
           = Throw (set_isBlocked false s1) err)
  /\ (forall fuel s0,
         always (fatal_read (fun s' => set_running false (set_isBlocked false s'))
                            (A := unit))
                (run fuel s0)).
Proof.
  intros Hc Hb. apply positive_truthy in Hb.
  unfold readDelayedData, bind, gets. simpl. rewrite Hc, Hb. simpl.
  split; [reflexivity|]. split; [|split].
  - intros err s1 He. rewrite He. split; [reflexivity|].
    intros s2. reflexivity.
  - intros err s1 He. rewrite He. reflexivity.
  - apply fatal_read_run.
Qed.

(** C7, as the code has it.  When the [stalledInterval] option is zero, or
    is there with the value [undefined], the constructor throws "Stalled
    interval cannot be zero or undefined": there is no instance, and no loop
    has been started.  When the option is left out, the default of 30000
    applies and the constructor returns an instance. *)
Theorem constructor_rejects_zero_stalledInterval
        (fuel : nat) (name : string) (options : QueueSchedulerOptions) :
  stalledInterval options = given (of_Z 0) \/ stalledInterval options = undefined ->
  constructor fuel name options
    = construction_throws (mkError "Stalled interval cannot be zero or undefined")
  /\ forall autorun' maxStalledCount',
      exists this started,
        constructor fuel name
          {| autorun := autorun';
             maxStalledCount := maxStalledCount';
             stalledInterval := absent |}
        = instance this started
        /\ opts_stalledInterval this = Some (of_Z 30000).
Proof.
  intros H. split.
  - unfold constructor. cbn [opts_stalledInterval].
    destruct H as [-> | ->]; reflexivity.
  - intros autorun' maxStalledCount'. unfold constructor.
    cbn [opts_stalledInterval stalledInterval spread_over truthy_opt].
    change (truthy (of_Z 30000)) with true. cbn [negb].
    destruct (destructured_default true _); eexists; eexists; split; reflexivity.
Qed.

(** C8.  On an instance whose [running] flag is set, [run()] throws "Queue
    Scheduler is already running." at once: no call is issued, and the
    instance is left as it was, with [running], [nextTimestamp], [isBlocked]
    and [closing] unchanged.  The stream cursor is a local variable of the
    invocation that is running; this one never gets to it. *)
Theorem run_while_running_throws (fuel : nat) (s : QueueScheduler) :
  running s = true ->
  run fuel s = Throw s (mkError "Queue Scheduler is already running.")
  /\ pending (run fuel s) = None
  /\ forall s', state_of (run fuel s) = Some s' ->
                running s' = true
                /\ nextTimestamp s' = nextTimestamp s
                /\ isBlocked s' = isBlocked s
                /\ closing s' = closing s.
Proof.
  intros H. rewrite (run_running fuel s H). simpl.
  split; [reflexivity|]. split; [reflexivity|].
  intros s' [= <-]. auto.
Qed.

(** C9.  Once a shutdown is pending, [close()] returns the promise kept in
    [closing] and changes nothing; [close()] always leaves the promise it
    returns in [closing], so that a second call returns the promise of the
    first, and the loop never takes it out of [closing]; with no shutdown
    pending, [close()] disconnects when [isBlocked] is set and closes the
    connection gracefully otherwise. *)
Theorem close_is_idempotent (s : QueueScheduler) :
  (forall p, closing s = Some p -> close s = (s, p))
  /\ closing (fst (close s)) = Some (snd (close s))
  /\ close (fst (close s)) = (fst (close s), snd (close s))
  /\ (closing s = None ->
      settles (snd (close s)) = if isBlocked s then by_disconnect else by_close)
  /\ (forall fuel,
         keeps (fun s0 s1 => forall p, closing s0 = Some p -> closing s1 = Some p)
               (run fuel)).
Proof.
  split; [|split; [|split; [|split]]].
  - apply close_pending.
  - apply close_sets_closing.
  - apply close_pending, close_sets_closing.
  - intros H. unfold close. rewrite H. destruct (isBlocked s); reflexivity.
  - intros fuel. apply keeps_run; auto.
    intros s0 p H. rewrite (close_pending s0 H). exact H.
Qed.


End Properties.

(* ================================================================== *)
(** ** Further properties of the class *)

Section Further.

Context {imports : Imports}.

Lemma close_running (s : QueueScheduler) : running (fst (close s)) = running s.
Proof.
  unfold close. destruct (closing s); [reflexivity|].
  destruct (isBlocked s); reflexivity.
Qed.

(* ------------------------------------------------------------------ *)
(** *** The reads that [run] issues *)

Lemma nonzero_readDelayedData
      (key : string) (streamLastId : cursor) (blockTime : number) :
  ok (fun _ => True) blocks_for_nonzero_time
     (readDelayedData key streamLastId blockTime).
Proof.
  intros s _. unfold readDelayedData, bind, gets. simpl.
  destruct (closing s); simpl; [auto|].
  destruct (truthy blockTime) eqn:Hb; simpl.
  - split; [exact Hb|].
    intros a s' _. destruct a; simpl; auto.
    destruct (isNotConnectionError err); simpl; auto.
    split; [exact I|]. intros a s2 _. destruct a; simpl; auto.
  - split; [exact I|]. intros a s' _. destruct a; simpl; auto.
Qed.

(** X1.  Wherever [run] waits for a blocking read, the block time of that
    read is truthy: the blocking read is never issued with a block time of
    zero or [NaN] (lines 235-244; a block time of zero takes the plain read of
    lines 256-258). *)
Theorem run_never_blocks_for_zero (fuel : nat) (s : QueueScheduler) :
  always (blocks_for_nonzero_time (A := unit)) (run fuel s).
Proof.
  destruct (running s) eqn:Hr.
  - rewrite (run_running fuel s Hr). simpl. auto.
  - rewrite (run_not_running fuel s Hr).
    eapply always_catch_res
      with (P := blocks_for_nonzero_time (A := unit)); simpl; auto.
    apply (@ok_run_body _ (fun _ => True) blocks_for_nonzero_time); simpl; auto.
    + intros A _ c k _ Hc. destruct c; simpl in *; try exact I. discriminate.
    + apply nonzero_readDelayedData.
Qed.

(* ------------------------------------------------------------------ *)
(** *** The [running] flag *)

Lemma interfere_running (c : call) (s s' : QueueScheduler) :
  interfere c s s' -> running s' = running s.
Proof. intros [c' s0 | c' s0 _]; [reflexivity | apply close_running]. Qed.

Lemma running_inside_readDelayedData
      (key : string) (streamLastId : cursor) (blockTime : number) :
  ok (fun s => isRunning s = true) running_inside
     (readDelayedData key streamLastId blockTime).
Proof.
  unfold isRunning. intros s Hs. unfold readDelayedData, bind, gets. simpl.
  destruct (closing s); simpl; [auto|].
  destruct (truthy blockTime); simpl.
  - split; [exact Hs|].
    intros a s' Hi. apply interfere_running in Hi. simpl in Hi.
    destruct a; simpl; unfold isRunning; simpl; auto;
      try (split; [congruence | exact I]).
    destruct (isNotConnectionError err); simpl; unfold isRunning; simpl;
      [split; [congruence | exact I]|].
    split; [congruence|].
    intros a s2 Hi2. apply interfere_running in Hi2.
    destruct a; simpl; unfold isRunning; simpl; auto;
      try (split; [congruence | exact I]).
  - split; [exact Hs|].
    intros a s' Hi. apply interfere_running in Hi.
    destruct a; simpl; unfold isRunning; auto;
      try (split; [congruence | exact I]).
Qed.

Lemma running_inside_ok {A : Type} (m : M A) :
  (forall pre P,
      (forall s, pre s -> pre (fst (close s))) ->
      (forall ev s, pre s -> pre (push_emitted ev s)) ->
      (forall v s, pre s -> pre (set_nextTimestamp v s)) ->
      (forall A s (a : A), pre s -> P A (Ret s a)) ->
      (forall A s e, pre s -> P A (Throw s e)) ->
      (forall A s (a : A), P A (Ret s a) -> pre s) ->
      (forall A s e, P A (Throw s e) -> pre s) ->
      (forall A, P A Stuck) ->
      (forall A, P A Spin) ->
      (forall A s c (k : answer -> QueueScheduler -> res A),
          pre s -> is_blocking_read c = false -> P A (Await s c k)) ->
      (forall A B s c (k : answer -> QueueScheduler -> res A) (f : A -> M B),
          P A (Await s c k) -> P B (Await s c (fun a s' => bind_res (k a s') f))) ->
      (forall key streamLastId blockTime,
          ok pre P (readDelayedData key streamLastId blockTime)) ->
      ok pre P m) ->
  ok (fun s => isRunning s = true) running_inside m.
Proof.
  intros H. apply H; unfold isRunning; simpl; auto.
  - intros s Hs. rewrite close_running. exact Hs.
  - apply running_inside_readDelayedData.
Qed.

Lemma running_in_try_bind {A B : Type} (m : M A) (f : A -> M B) :
  ok (fun s => isRunning s = true) running_inside m ->
  (forall a s, isRunning s = true -> always (running_in_try (A := B)) (f a s)) ->
  forall s, isRunning s = true -> always (running_in_try (A := B)) (bind m f s).
Proof.
  intros Hm Hf s Hs. unfold bind.
  eapply always_bind_res with (1 := Hm s Hs); simpl; auto.
Qed.

(** X2.  [isRunning()] tells whether the loop is in flight: started on an
    instance that is not running, [run] has [running] set at every call it
    waits for, and reset whenever it has returned or thrown (lines 127-129,
    213-216, 223-225). *)
Theorem isRunning_while_run_in_flight (fuel : nat) (s : QueueScheduler) :
  isRunning s = false ->
  always (running_until_exit (A := unit)) (run fuel s).
Proof.
  unfold isRunning. intros Hr. rewrite (run_not_running fuel s Hr).
  eapply always_catch_res with (P := running_in_try (A := unit));
    [ | intros s0 a H; exact H | | intros s0 c k H; exact H | exact I | exact I].
  - unfold run_body. unfold bind at 1. cbn [modify bind_res].
    assert (Hs : isRunning (set_running true s) = true) by reflexivity.
    revert Hs. generalize (set_running true s). intros s1 Hs1.
    apply running_in_try_bind; [| intros _ s2 Hs2 | exact Hs1].
    { apply running_inside_ok. intros. apply ok_await; auto. }
    apply running_in_try_bind; [| intros key s3 Hs3 | exact Hs2].
    { apply running_inside_ok. intros. apply ok_gets; auto. }
    apply running_in_try_bind; [| intros _ s4 Hs4 | exact Hs3].
    { apply running_inside_ok. intros. apply ok_setname; auto.
      intros e. destruct (negb _); [apply ok_throw | apply ok_ret]; auto. }
    apply running_in_try_bind; [| intros now' s5 Hs5 | exact Hs4].
    { apply running_inside_ok. intros. apply ok_now; auto. }
    apply running_in_try_bind; [| intros result s6 Hs6 | exact Hs5].
    { apply running_inside_ok. intros. apply ok_updateDelaySet; auto. }
    apply running_in_try_bind; [| intros [nextTimestamp' streamId] s7 Hs7 | exact Hs6].
    { apply running_inside_ok. intros. apply ok_destructure; auto. }
    cbv zeta.
    apply running_in_try_bind; [| intros _ s8 Hs8 | exact Hs7].
    { apply running_inside_ok. intros.
      destruct (truthy_opt nextTimestamp'); [apply ok_modify | apply ok_ret]; auto. }
    apply running_in_try_bind; [| intros _ s9 Hs9 | exact Hs8].
    { apply running_inside_ok. intros. apply ok_loop; auto. }
    simpl. auto.
  - intros s0 e H. unfold bind, modify, throw. simpl. auto.
Qed.


(* ------------------------------------------------------------------ *)
(** *** Remote operations and a pending shutdown *)

Local Abbreviation guarded := (ok (fun _ => True) remote_only_while_open).

Lemma guarded_ret {A : Type} (a : A) : guarded (ret a).
Proof. intros s _. simpl. auto. Qed.

Lemma guarded_throw {A : Type} (e : Error) : guarded (throw (A := A) e).
Proof. intros s _. simpl. auto. Qed.

Lemma guarded_spin {A : Type} : guarded (spin (A := A)).
Proof. intros s _. simpl. auto. Qed.

Lemma guarded_gets {A : Type} (f : QueueScheduler -> A) : guarded (gets f).
Proof. intros s _. simpl. auto. Qed.

Lemma guarded_modify (g : QueueScheduler -> QueueScheduler) : guarded (modify g).
Proof. intros s _. simpl. auto. Qed.

Lemma guarded_bind {A B : Type} (m : M A) (f : A -> M B) :
  guarded m -> (forall a, guarded (f a)) -> guarded (bind m f).
Proof. intros Hm Hf. apply ok_bind; simpl; auto. Qed.

Lemma guarded_await (c : call) : is_remote c = false -> guarded (await_ c).
Proof.
  intros Hc s _. simpl. split; [congruence|].
  intros a s' _. destruct a; simpl; auto.
Qed.

Lemma guarded_now : guarded now.
Proof.
  intros s _. simpl. split; [discriminate|].
  intros a s' _. destruct a; simpl; auto.
Qed.

Lemma guarded_destructure {A B : Type} (v : option (A * B)) : guarded (destructure v).
Proof. destruct v; [apply guarded_ret | apply guarded_throw]. Qed.

Lemma guarded_updateDelaySet (timestamp : number) : guarded (updateDelaySet timestamp).
Proof.
  intros s _. unfold updateDelaySet, checkConnectionError, bind, gets. simpl.
  destruct (closing s) eqn:Hc; simpl; [auto|].
  split; [auto|]. intros a s' _. destruct a; simpl; auto.
Qed.

Lemma guarded_moveStalledJobsToWait : guarded moveStalledJobsToWait.
Proof.
  intros s _. unfold moveStalledJobsToWait, bind, gets. simpl.
  destruct (closing s) eqn:Hc; simpl; [auto|].
  split; [auto|]. intros a s' _. destruct a; simpl; auto.
  unfold bind. rewrite forEach_emit. simpl. rewrite forEach_emit. simpl. auto.
Qed.

Lemma guarded_readDelayedData
      (key : string) (streamLastId : cursor) (blockTime : number) :
  guarded (readDelayedData key streamLastId blockTime).
Proof.
  intros s _. unfold readDelayedData, checkConnectionError, bind, gets. simpl.
  destruct (closing s) eqn:Hc; simpl; [auto|].
  destruct (truthy blockTime); simpl.
  - split; [auto|]. intros a s' _. destruct a; simpl; auto.
    destruct (isNotConnectionError err); simpl; auto.
    split; [discriminate|]. intros a s2 _. destruct a; simpl; auto.
  - split; [auto|]. intros a s' _. destruct a; simpl; auto.
Qed.

Lemma guarded_applyData
      (key : string) (data : option StreamReadRaw) (streamLastId : cursor) :
  guarded (applyData key data streamLastId).
Proof.
  intros s _. unfold applyData.
  destruct data as [[|stream data]|]; simpl; auto.
  unfold bind.
  destruct (processEvents_spec (snd stream) streamLastId s) as (n & -> & _).
  unfold checkConnectionError, gets. simpl.
  destruct (closing s) eqn:Hc; simpl; [auto|].
  split; [auto|]. intros a s' _. destruct a; simpl; auto.
Qed.

Local Hint Resolve guarded_ret guarded_throw guarded_spin guarded_gets guarded_modify
  guarded_now guarded_destructure guarded_updateDelaySet guarded_moveStalledJobsToWait
  guarded_readDelayedData guarded_applyData : guarded.

Ltac guarded_step :=
  match goal with
  | |- ok _ _ (bind _ _) => apply guarded_bind; [ | intro]
  | |- ok _ _ (checkConnectionError _) => unfold checkConnectionError
  | |- ok _ _ (await_ _) => apply guarded_await; reflexivity
  | |- ok _ _ (let _ := _ in _) => cbv zeta
  | |- ok _ _ (if ?b then _ else _) => destruct b eqn:?
  | |- ok _ _ (let '(_, _) := ?x in _) => destruct x
  | |- ok _ _ _ => solve [auto with guarded]
  end.

Lemma guarded_iteration (key : string) (streamLastId : cursor) :
  guarded (iteration key streamLastId).
Proof. unfold iteration, readAndApply, dueTimePromotion. repeat guarded_step. Qed.

Lemma guarded_loop (fuel : nat) (key : string) (streamLastId : cursor) :
  guarded (loop fuel key streamLastId).
Proof.
  revert streamLastId. induction fuel as [|fuel IH]; intros streamLastId; simpl.
  - auto with guarded.
  - apply guarded_bind; [auto with guarded | intros c].
    destruct (negb (is_set c)); [|auto with guarded].
    apply guarded_bind; [apply guarded_iteration | intro; apply IH].
Qed.

Local Hint Resolve guarded_loop : guarded.

Lemma guarded_run_body (fuel : nat) : guarded (run_body fuel).
Proof.
  unfold run_body.
  apply guarded_bind; [auto with guarded | intros _].
  apply guarded_bind; [apply guarded_await; reflexivity | intros _].
  apply guarded_bind; [auto with guarded | intros key].
  apply guarded_bind; [| intros _].
  { intros s _. unfold try_catch. simpl. split; [discriminate|].
    intros a s' _. destruct a; simpl; auto.
    destruct (negb _); simpl; auto. }
  repeat guarded_step.
Qed.

(** X3.  Once a shutdown is pending the loop issues no further remote
    operation: wherever [run] waits for one of the two scripts, for a read of
    the stream or for the trim, [closing] was not set when the call was
    issued (the guards of lines 192, 233, 267 and 278). *)
Theorem run_issues_no_remote_call_while_closing (fuel : nat) (s : QueueScheduler) :
  always (remote_only_while_open (A := unit)) (run fuel s).
Proof.
  destruct (running s) eqn:Hr.
  - rewrite (run_running fuel s Hr). simpl. auto.
  - rewrite (run_not_running fuel s Hr).
    eapply always_catch_res with (P := remote_only_while_open (A := unit));
      [ apply guarded_run_body; exact I
      | intros s0 a H; exact H
      | intros s0 e _; simpl; auto
      | intros s0 c k H; exact H
      | exact I | exact I ].
Qed.


(* ------------------------------------------------------------------ *)
(** *** The start of [run] *)

(** X4.  [run] first waits for the connection and then names it.  A
    rejection of [waitUntilReady()] makes [run] throw that error.  A rejection
    of the [setname] command whose message matches [clientCommandMessageReg]
    is ignored and [run] goes on to read the clock for the initial
    promotion; any other rejection of it makes [run] throw that error.
    Whenever [run] throws here, [running] has been reset (lines 128-144,
    214-217). *)
Theorem run_tolerates_unsupported_setname (fuel : nat) (s : QueueScheduler) :
  running s = false ->
  pending (run fuel s) = Some waitUntilReady
  /\ (forall err s1,
         resume (run fuel s) (rejected err) s1 = Throw (set_running false s1) err)
  /\ (forall s1,
         pending (resume (run fuel s) resolved s1)
         = Some (client_setname (clientName QUEUE_SCHEDULER_SUFFIX)))
  /\ (forall s1 err s2,
         clientCommandMessageReg_test (message err) = false ->
         resume (resume (run fuel s) resolved s1) (rejected err) s2
         = Throw (set_running false s2) err)
  /\ (forall s1 err s2,
         clientCommandMessageReg_test (message err) = true ->
         pending (resume (resume (run fuel s) resolved s1) (rejected err) s2)
         = Some Date_now
         /\ state_of (resume (resume (run fuel s) resolved s1) (rejected err) s2)
            = Some s2).
Proof.
  intros Hr. rewrite (run_not_running fuel s Hr).
  unfold run_body, bind, try_catch, gets, modify, await_, now. cbn [bind_res catch_res].
  split; [reflexivity|]. split; [reflexivity|]. split; [reflexivity|].
  cbn [resume bind_res catch_res]. split.
  - intros s1 err s2 H. rewrite H. reflexivity.
  - intros s1 err s2 H. rewrite H. split; reflexivity.
Qed.


(** Answering the pending call of [p] inside a sequence or a [try]. *)
Lemma pending_bind_res {A B : Type} (p : res A) (f : A -> M B) (c : call) :
  pending p = Some c -> pending (bind_res p f) = Some c.
Proof. destruct p; simpl; intros H; try discriminate; exact H. Qed.

Lemma pending_catch_res {A : Type} (p : res A) (h : Error -> M A) (c : call) :
  pending p = Some c -> pending (catch_res p h) = Some c.
Proof. destruct p; simpl; intros H; try discriminate; exact H. Qed.

Lemma resume_same_bind_res {A B : Type} (p : res A) (f : A -> M B) (a : answer) (c : call) :
  pending p = Some c -> resume_same (bind_res p f) a = bind_res (resume_same p a) f.
Proof. destruct p; simpl; intros H; try discriminate; reflexivity. Qed.

Lemma resume_same_catch_res {A : Type} (p : res A) (h : Error -> M A) (a : answer)
      (c : call) :
  pending p = Some c -> resume_same (catch_res p h) a = catch_res (resume_same p a) h.
Proof. destruct p; simpl; intros H; try discriminate; reflexivity. Qed.

(** The first two stops of an iteration. *)
Lemma readAndApply_sweep (key : string) (streamLastId : cursor) (s : QueueScheduler) :
  closing s = None ->
  pending (readAndApply key streamLastId s) = Some Scripts_moveStalledJobsToWait.
Proof.
  intros Hc. unfold readAndApply, checkConnectionError, moveStalledJobsToWait, bind, gets.
  simpl. rewrite Hc. reflexivity.
Qed.

Lemma readAndApply_clock
      (key : string) (streamLastId : cursor) (s : QueueScheduler)
      (failed stalled : list string) :
  closing s = None ->
  pending (resume_same (readAndApply key streamLastId s)
                       (resolved_stalled failed stalled))
  = Some Date_now.
Proof.
  intros Hc.
  unfold readAndApply, checkConnectionError, bind at 1.
  assert (E : moveStalledJobsToWait s =
              Await s Scripts_moveStalledJobsToWait
                    (fun a s' => resume (moveStalledJobsToWait s) a s')).
  { unfold moveStalledJobsToWait, bind, gets. simpl. rewrite Hc. reflexivity. }
  rewrite E. cbn [bind_res resume_same].
  rewrite (@moveStalledJobsToWait_resolved s s failed stalled Hc).
  reflexivity.
Qed.

(** The first read of the loop. *)
Lemma loop_first_read
      (fuel : nat) (key : string) (streamLastId : cursor) (s : QueueScheduler)
      (failed stalled : list string) (now' : number)
      (B : Type) (f : unit -> M B) (h : Error -> M B) :
  closing s = None ->
  pending (catch_res (bind_res (loop (S fuel) key streamLastId s) f) h)
  = Some Scripts_moveStalledJobsToWait
  /\ pending (resume_same
                (resume_same (catch_res (bind_res (loop (S fuel) key streamLastId s) f) h)
                             (resolved_stalled failed stalled))
                (resolved_number now'))
     = Some (if truthy (blockTime (opts_stalledInterval s) (nextTimestamp s) now')
             then xread_BLOCK (blockTime (opts_stalledInterval s) (nextTimestamp s) now')
                              key streamLastId
             else xread key streamLastId).
Proof.
  intros Hc.
  assert (E : loop (S fuel) key streamLastId s
              = bind_res (bind_res (readAndApply key streamLastId s) dueTimePromotion)
                         (fun c => loop fuel key c)).
  { cbn [loop]. unfold bind at 1, gets. cbn [bind_res]. rewrite Hc. reflexivity. }
  rewrite E.
  pose proof (readAndApply_sweep key streamLastId s Hc) as H0.
  pose proof (readAndApply_clock key streamLastId s failed stalled Hc) as H1.
  pose proof (readAndApply_read key streamLastId s failed stalled now' Hc) as H2.
  split.
  - apply pending_catch_res. do 3 apply pending_bind_res. exact H0.
  - rewrite (resume_same_catch_res _ _ _ (c := Scripts_moveStalledJobsToWait))
      by (do 3 apply pending_bind_res; exact H0).
    rewrite (resume_same_bind_res _ _ _ (c := Scripts_moveStalledJobsToWait))
      by (do 2 apply pending_bind_res; exact H0).
    rewrite (resume_same_bind_res _ _ _ (c := Scripts_moveStalledJobsToWait))
      by (apply pending_bind_res; exact H0).
    rewrite (resume_same_bind_res _ _ _ (c := Scripts_moveStalledJobsToWait))
      by exact H0.
    rewrite (resume_same_catch_res _ _ _ (c := Date_now))
      by (do 3 apply pending_bind_res; exact H1).
    rewrite (resume_same_bind_res _ _ _ (c := Date_now))
      by (do 2 apply pending_bind_res; exact H1).
    rewrite (resume_same_bind_res _ _ _ (c := Date_now))
      by (apply pending_bind_res; exact H1).
    rewrite (resume_same_bind_res _ _ _ (c := Date_now)) by exact H1.
    apply pending_catch_res. do 3 apply pending_bind_res. exact H2.
Qed.

(** X5.  [run] starts the loop from what the initial promotion returns: the
    promotion operation is called with the time read; the first read of the
    loop starts from the returned position, or from ["0-0"] when none is
    returned; the returned timestamp is adopted when it is truthy and
    otherwise [nextTimestamp] keeps its value (it is not reset), and the
    block time of the first read is computed from it (lines 146-153). *)
Theorem run_starts_from_promoted_cursor
        (fuel : nat) (s : QueueScheduler) (now0 : number)
        (v : option number) (id : option string)
        (failed stalled : list string) (now1 : number) :
  running s = false -> closing s = None ->
  let p3 := resume_same (resume_same (resume_same (run (S fuel) s) resolved) resolved)
                        (resolved_number now0) in
  let p4 := resume_same p3 (resolved_delaySet (Some (v, id))) in
  let p6 := resume_same (resume_same p4 (resolved_stalled failed stalled))
                        (resolved_number now1) in
  let nextTimestamp' := if truthy_opt v then ToNumber v else nextTimestamp s in
  let streamLastId := Some (match id with Some i => i | None => "0-0"%string end) in
  let blockTime' := blockTime (opts_stalledInterval s) nextTimestamp' now1 in
  pending p3 = Some (Scripts_updateDelaySet now0)
  /\ pending p4 = Some Scripts_moveStalledJobsToWait
  /\ pending p6 = Some (if truthy blockTime'
                        then xread_BLOCK blockTime' (keys_delay s) streamLastId
                        else xread (keys_delay s) streamLastId).
Proof.
  intros Hr Hc. cbv zeta. rewrite (run_not_running (S fuel) s Hr).
  assert (E3 : forall r,
             resume_same
               (resume_same
                  (resume_same
                     (resume_same
                        (catch_res (run_body (S fuel) s)
                           (fun error => modify (set_running false) ;; throw error))
                        resolved) resolved) (resolved_number now0))
               (resolved_delaySet (Some (v, id)))
             = r ->
             r = catch_res
                   (bind_res
                      (loop (S fuel) (keys_delay s)
                         (Some (match id with Some i => i | None => "0-0"%string end))
                         (if truthy_opt v
                          then set_nextTimestamp (ToNumber v) (set_running true s)
                          else set_running true s))
                      (fun _ => modify (set_running false)))
                   (fun error => modify (set_running false) ;; throw error)).
  { intros r <-.
    unfold run_body, updateDelaySet, checkConnectionError, await_delaySet, destructure.
    unfold bind, try_catch, gets, modify, await_, now, ret.
    cbn [bind_res catch_res resume_same closing set_running is_set negb keys_delay].
    rewrite Hc. cbn [bind_res catch_res resume_same is_set negb].
    destruct id, (truthy_opt v); reflexivity. }
  split.
  { unfold run_body, updateDelaySet, checkConnectionError, await_delaySet.
    unfold bind, try_catch, gets, modify, await_, now.
    cbn [bind_res catch_res resume_same closing set_running is_set negb].
    rewrite Hc. reflexivity. }
  rewrite (E3 _ eq_refl).
  assert (Hc' : closing (if truthy_opt v
                         then set_nextTimestamp (ToNumber v) (set_running true s)
                         else set_running true s) = None).
  { destruct (truthy_opt v); exact Hc. }
  destruct (loop_first_read fuel (keys_delay s)
              (Some (match id with Some i => i | None => "0-0"%string end))
              _ failed stalled now1
              (fun _ : unit => modify (set_running false))
              (fun error => modify (set_running false) ;; throw error) Hc')
    as [H4 H6].
  split; [exact H4|].
  rewrite H6. destruct (truthy_opt v); reflexivity.
Qed.


(** X6.  [run] called on an instance that is being closed waits for the
    connection, names it, reads the clock and returns: it calls neither
    script, reads nothing from the stream, and leaves [nextTimestamp] and the
    rest of the instance as they were, with [running] reset (the guards of
    lines 155 and 267). *)
Theorem run_on_closing_scheduler
        (fuel : nat) (s : QueueScheduler) (p : Promise) (now0 : number) :
  running s = false -> closing s = Some p ->
  pending (run (S fuel) s) = Some waitUntilReady
  /\ pending (resume_same (run (S fuel) s) resolved)
     = Some (client_setname (clientName QUEUE_SCHEDULER_SUFFIX))
  /\ pending (resume_same (resume_same (run (S fuel) s) resolved) resolved)
     = Some Date_now
  /\ resume_same (resume_same (resume_same (run (S fuel) s) resolved) resolved)
                 (resolved_number now0)
     = Ret s tt.
Proof.
  intros Hr Hc. rewrite (run_not_running (S fuel) s Hr).
  unfold run_body, updateDelaySet, checkConnectionError, await_delaySet, destructure.
  cbn [loop].
  unfold bind, try_catch, gets, modify, await_, now, ret.
  cbn [bind_res catch_res resume_same closing set_running is_set negb keys_delay pending].
  rewrite Hc.
  cbn [bind_res catch_res resume_same closing set_running is_set negb truthy_opt].
  change (truthy (of_Z 0)) with false.
  cbn [bind_res catch_res resume_same closing set_running is_set negb].
  rewrite Hc.
  cbn [bind_res catch_res resume_same closing set_running is_set negb].
  repeat split. destruct s; simpl in *; subst; reflexivity.
Qed.

(* ------------------------------------------------------------------ *)
(** *** The data of a read *)

(** X7.  Entries can be processed in one batch or in two: processing
    [events1 ++ events2] is processing [events1] and then [events2] from
    the cursor and the [nextTimestamp] that [events1] left (lines 178-186). *)
Theorem processEvents_app
        (events1 events2 : list StreamEntry) (streamLastId : cursor)
        (s : QueueScheduler) :
  processEvents (events1 ++ events2) streamLastId s
  = (streamLastId' <- processEvents events1 streamLastId ;;
     processEvents events2 streamLastId') s.
Proof.
  revert streamLastId s.
  induction events1 as [|event events1 IH]; intros streamLastId s; [reflexivity|].
  cbn [app processEvents]. unfold bind at 1 2 3 4, gets. cbn [bind_res].
  destruct (ltb _ (nextTimestamp s)); cbn [modify ret bind_res]; apply IH.
Qed.

(** X8.  What is done with the reply of a read.  Without a reply, or with a
    reply that holds no stream, nothing is done.  Otherwise the entries of
    the first stream of the reply, and of no other stream, are processed:
    [nextTimestamp] becomes the least of its prior value and the parsed
    fields of these entries, and nothing else of the instance changes.
    Unless a shutdown is pending the stream is then trimmed with
    [XTRIM key MAXLEN ~ 100], also when the first stream holds no entry, the
    instance being the one the entries left; the number that the trim
    resolves to is ignored.  With a shutdown pending the trim is skipped.
    The cursor returned is the position of the last entry of the first
    stream, or the cursor passed in when it holds no entry
    (lines 174-197). *)
Theorem applyData_trims_after_a_reply
        (key : string) (stream : string * list StreamEntry) (others : StreamReadRaw)
        (streamLastId : cursor) (s : QueueScheduler) :
  applyData key None streamLastId s = Ret s streamLastId
  /\ applyData key (Some []) streamLastId s = Ret s streamLastId
  /\ exists n,
      processEvents (snd stream) streamLastId s
      = Ret (set_nextTimestamp n s)
            (last (map (fun event => Some (fst event)) (snd stream)) streamLastId)
      /\ not_raised (nextTimestamp s) n
      /\ In n (nextTimestamp s :: map parsed_nextTimestamp (snd stream))
      /\ Forall (fun event => ltb (parsed_nextTimestamp event) n = false) (snd stream)
      /\ (closing s = None ->
          pending (applyData key (Some (stream :: others)) streamLastId s)
          = Some (xtrim_MAXLEN key 100)
          /\ state_of (applyData key (Some (stream :: others)) streamLastId s)
             = Some (set_nextTimestamp n s)
          /\ forall m s',
              resume (applyData key (Some (stream :: others)) streamLastId s)
                     (resolved_number m) s'
              = Ret s' (last (map (fun event => Some (fst event)) (snd stream))
                             streamLastId))
      /\ (closing s <> None ->
          applyData key (Some (stream :: others)) streamLastId s
          = Ret (set_nextTimestamp n s)
                (last (map (fun event => Some (fst event)) (snd stream))
                      streamLastId)).
Proof.
  split; [reflexivity|]. split; [reflexivity|].
  destruct (processEvents_spec (snd stream) streamLastId s)
    as (n & Heq & Hn & Hin & Hall).
  exists n. split; [exact Heq|]. split; [exact Hn|].
  split; [exact Hin|]. split; [exact Hall|].
  unfold applyData, checkConnectionError, bind. rewrite Heq.
  unfold gets, await_, ret. cbn [bind_res closing set_nextTimestamp].
  destruct (closing s) eqn:Hc; cbn [is_set negb bind_res pending resume state_of].
  - split; [discriminate|]. intros _. reflexivity.
  - split; [|congruence]. intros _. repeat split; reflexivity.
Qed.


(* ------------------------------------------------------------------ *)
(** *** The block time, computed *)

Lemma Qfloor_half (k : Z) : Qfloor (inject_Z k + (1 # 2)) = k.
Proof.
  pose proof (Math_round_of_Z k) as H. unfold Math_round, of_Z in H.
  apply (f_equal (fun n => match n with Fin q => Qnum q | _ => 0%Z end)) in H.
  exact H.
Qed.

Lemma truthy_of_Z (k : Z) : truthy (of_Z k) = true <-> k <> 0%Z.
Proof.
  unfold truthy, of_Z. split.
  - intros H ->. discriminate H.
  - intros H. destruct (Qeq_bool (inject_Z k) 0) eqn:E; [|reflexivity].
    apply Qeq_bool_iff in E. unfold Qeq in E. simpl in E. lia.
Qed.

(** X9.  On times in milliseconds the block time is
    [min(stalledInterval, max(nextTimestamp - now, 0))], computed on the
    integers, for every positive stalled interval and all timestamps, past
    or future.  It is zero, which selects the read that does not block,
    exactly when the next delayed job is due: [nextTimestamp <= now]
    (lines 161-165, 235, 255-258). *)
Theorem blockTime_on_milliseconds (z n t : Z) :
  (0 < z)%Z ->
  blockTime (Some (of_Z z)) (of_Z n) (of_Z t) = of_Z (Z.min z (Z.max (n - t) 0))
  /\ (truthy (blockTime (Some (of_Z z)) (of_Z n) (of_Z t)) = false <-> (n <= t)%Z).
Proof.
  intros Hz.
  assert (E : blockTime (Some (of_Z z)) (of_Z n) (of_Z t)
              = of_Z (Z.min z (Z.max (n - t) 0))).
  { unfold blockTime, ToNumber, of_Z. cbn [sub].
    assert (Hd : (inject_Z n - inject_Z t == inject_Z (n - t))%Q).
    { unfold Qminus, Z.sub. rewrite inject_Z_plus, inject_Z_opp. reflexivity. }
    unfold Math_max.
    destruct (ltb (Fin (inject_Z n - inject_Z t)) (Fin (inject_Z 0))) eqn:E1.
    - apply ltb_Fin in E1. rewrite Hd, <- Zlt_Qlt in E1.
      unfold Math_min.
      rewrite (proj2 (ltb_Fin (inject_Z 0) (inject_Z z)))
        by (rewrite <- Zlt_Qlt; exact Hz).
      unfold Math_round, of_Z. rewrite Qfloor_half. do 2 f_equal. lia.
    - apply ltb_Fin_false in E1. rewrite Hd, <- Zle_Qle in E1.
      unfold Math_min.
      destruct (ltb (Fin (inject_Z n - inject_Z t)) (Fin (inject_Z z))) eqn:E2.
      + apply ltb_Fin in E2. rewrite Hd, <- Zlt_Qlt in E2.
        unfold Math_round, of_Z.
        rewrite (Qfloor_comp _ (inject_Z (n - t) + (1 # 2)))
          by (rewrite Hd; reflexivity).
        rewrite Qfloor_half. do 2 f_equal. lia.
      + apply ltb_Fin_false in E2. rewrite Hd, <- Zle_Qle in E2.
        unfold Math_round, of_Z. rewrite Qfloor_half. do 2 f_equal. lia. }
  split; [exact E|]. rewrite E.
  pose proof (truthy_of_Z (Z.min z (Z.max (n - t) 0))) as Ht.
  destruct (truthy (of_Z (Z.min z (Z.max (n - t) 0)))).
  - split; [discriminate|]. intros Hle. destruct Ht as [Ht _].
    exfalso. apply Ht; [reflexivity | lia].
  - split; [|reflexivity]. intros _.
    destruct (Z.eq_dec (Z.min z (Z.max (n - t) 0)) 0) as [E0|E0]; [lia|].
    apply Ht in E0. discriminate.
Qed.



(* ------------------------------------------------------------------ *)
(** *** Block times along [run] *)

Lemma close_opts_stalledInterval (s : QueueScheduler) :
  opts_stalledInterval (fst (close s)) = opts_stalledInterval s.
Proof. unfold close. destruct (closing s), (isBlocked s); reflexivity. Qed.

Lemma interfere_opts_stalledInterval (c : call) (s s' : QueueScheduler) :
  interfere c s s' -> opts_stalledInterval s' = opts_stalledInterval s.
Proof.
  intros [c' s0 | c' s0 _]; [reflexivity | apply close_opts_stalledInterval].
Qed.

(** A block time that is truthy is above zero and at most the interval,
    whatever [nextTimestamp] and the clock are. *)
Lemma blockTime_truthy_within (z : Z) (nextTimestamp' now' : number) :
  (0 < z)%Z ->
  truthy (blockTime (Some (of_Z z)) nextTimestamp' now') = true ->
  ltb (of_Z 0) (blockTime (Some (of_Z z)) nextTimestamp' now') = true
  /\ leb (blockTime (Some (of_Z z)) nextTimestamp' now') (of_Z z) = true.
Proof.
  intros Hz. unfold blockTime, ToNumber.
  destruct (is_NaN (sub nextTimestamp' now')) eqn:Hd.
  - destruct (sub nextTimestamp' now'); try discriminate Hd.
    simpl. discriminate.
  - assert (Hq : (0 <= inject_Z z)%Q).
    { change 0%Q with (inject_Z 0). rewrite <- Zle_Qle. lia. }
    destruct (@Math_max_zero _ Hd) as [_ Hm].
    destruct (@Math_min_below (inject_Z z) _ Hq Hm) as (r & Heq & Hr0 & Hrq).
    change (Fin (inject_Z z)) with (of_Z z) in Heq. rewrite Heq. intros Ht.
    pose proof (Math_round_mono Hr0) as H0.
    pose proof (Math_round_mono Hrq) as H1.
    change (Fin (inject_Z z)) with (of_Z z) in H1.
    change (Fin 0) with (of_Z 0) in H0.
    rewrite Math_round_of_Z in H0, H1.
    split; [|exact H1].
    unfold Math_round in *. apply truthy_of_Z in Ht.
    apply leb_Fin in H0. rewrite <- Zle_Qle in H0.
    apply ltb_Fin. rewrite <- Zlt_Qlt. lia.
Qed.

Section Within.

Variable z : Z.

Local Abbreviation within :=
  (ok (fun s => opts_stalledInterval s = Some (of_Z z)) (blocks_within z)).

Lemma within_ok {A : Type} (m : M A) :
  (forall pre P,
      (forall s, pre s -> pre (fst (close s))) ->
      (forall ev s, pre s -> pre (push_emitted ev s)) ->
      (forall v s, pre s -> pre (set_nextTimestamp v s)) ->
      (forall A s (a : A), pre s -> P A (Ret s a)) ->
      (forall A s e, pre s -> P A (Throw s e)) ->
      (forall A s (a : A), P A (Ret s a) -> pre s) ->
      (forall A s e, P A (Throw s e) -> pre s) ->
      (forall A, P A Stuck) ->
      (forall A, P A Spin) ->
      (forall A s c (k : answer -> QueueScheduler -> res A),
          pre s -> is_blocking_read c = false -> P A (Await s c k)) ->
      (forall A B s c (k : answer -> QueueScheduler -> res A) (f : A -> M B),
          P A (Await s c k) -> P B (Await s c (fun a s' => bind_res (k a s') f))) ->
      ok pre P m) ->
  within m.
Proof.
  intros H. apply H; simpl; auto.
  - intros s Hs. rewrite close_opts_stalledInterval. exact Hs.
  - intros B s c k Hs Hc. split; [exact Hs|].
    destruct c; try exact I. discriminate.
Qed.

Lemma within_bind {A B : Type} (m : M A) (f : A -> M B) :
  within m -> (forall a, within (f a)) -> within (bind m f).
Proof. intros Hm Hf. apply ok_bind; simpl; auto. Qed.

Lemma within_modify (g : QueueScheduler -> QueueScheduler) :
  (forall s, opts_stalledInterval (g s) = opts_stalledInterval s) ->
  within (modify g).
Proof. intros Hg s Hs. simpl. rewrite Hg. auto. Qed.

Lemma within_readDelayedData
      (key : string) (streamLastId : cursor) (blockTime : number) :
  (truthy blockTime = true ->
   ltb (of_Z 0) blockTime = true /\ leb blockTime (of_Z z) = true) ->
  within (readDelayedData key streamLastId blockTime).
Proof.
  intros Hb s Hs. unfold readDelayedData, checkConnectionError, bind, gets. simpl.
  destruct (closing s); simpl; [auto|].
  destruct (truthy blockTime); simpl.
  - split; [auto|].
    intros a s' Hi. apply interfere_opts_stalledInterval in Hi. simpl in Hi.
    rewrite <- Hi in Hs.
    destruct a; simpl; auto.
    destruct (isNotConnectionError err); simpl; auto.
    split; [auto|].
    intros a s2 Hi2. apply interfere_opts_stalledInterval in Hi2.
    rewrite <- Hi2 in Hs.
    destruct a; simpl; auto.
  - split; [auto|].
    intros a s' Hi. apply interfere_opts_stalledInterval in Hi.
    rewrite <- Hi in Hs.
    destruct a; simpl; auto.
Qed.

Hypothesis z_positive : (0 < z)%Z.

Lemma within_readAndApply (key : string) (streamLastId : cursor) :
  within (readAndApply key streamLastId).
Proof.
  unfold readAndApply, checkConnectionError.
  apply within_bind;
    [apply within_ok; intros; apply ok_moveStalledJobsToWait; auto | intros _].
  apply within_bind; [apply within_ok; intros; apply ok_gets; auto | intros n].
  apply within_bind; [apply within_ok; intros; apply ok_now; auto | intros t].
  intros s Hs. unfold bind at 1. unfold gets at 1. cbn [bind_res]. rewrite Hs.
  cbv zeta.
  apply within_bind; [ | | exact Hs].
  - apply within_readDelayedData. apply blockTime_truthy_within. exact z_positive.
  - intros data. apply within_ok. intros. apply ok_applyData; auto.
Qed.

Lemma within_iteration (key : string) (streamLastId : cursor) :
  within (iteration key streamLastId).
Proof.
  unfold iteration. apply within_bind; [apply within_readAndApply | intros c].
  apply within_ok. intros. apply ok_dueTimePromotion; auto.
Qed.

Lemma within_loop (fuel : nat) (key : string) (streamLastId : cursor) :
  within (loop fuel key streamLastId).
Proof.
  revert streamLastId. induction fuel as [|fuel IH]; intros streamLastId; simpl.
  - apply within_ok. intros. apply ok_spin; auto.
  - apply within_bind; [apply within_ok; intros; apply ok_gets; auto | intros c].
    destruct (negb (is_set c)).
    + apply within_bind; [apply within_iteration | intros c'; apply IH].
    + apply within_ok. intros. apply ok_ret; auto.
Qed.

Lemma within_run_body (fuel : nat) : within (run_body fuel).
Proof.
  unfold run_body.
  apply within_bind; [apply within_modify; reflexivity | intros _].
  apply within_bind; [apply within_ok; intros; apply ok_await; auto | intros _].
  apply within_bind; [apply within_ok; intros; apply ok_gets; auto | intros key].
  apply within_bind; [ | intros _].
  { apply within_ok. intros. apply ok_setname; auto.
    intros e. destruct (negb _); [apply ok_throw | apply ok_ret]; auto. }
  apply within_bind; [apply within_ok; intros; apply ok_now; auto | intros t].
  apply within_bind;
    [apply within_ok; intros; apply ok_updateDelaySet; auto | intros result].
  apply within_bind;
    [apply within_ok; intros; apply ok_destructure; auto
    | intros [nextTimestamp' streamId]].
  cbv zeta.
  apply within_bind; [ | intros _].
  { apply within_ok. intros.
    destruct (truthy_opt nextTimestamp'); [apply ok_modify | apply ok_ret]; auto. }
  apply within_bind; [apply within_loop | intros _].
  apply within_modify. reflexivity.
Qed.

End Within.

(** X11.  Every blocking read that [run] issues, in whatever iteration and
    whatever the calls before it were answered with (the clock and the
    timestamps of the promotion operation and of the stream included), has a
    block time above zero and at most the stalled interval, for a stalled
    interval of [z] milliseconds, [z] a positive integer; and the stalled
    interval of the options is the same at every point of [run]
    (lines 161-172, 235-244). *)
Theorem run_blocks_within_stalledInterval (z : Z) (fuel : nat) (s : QueueScheduler) :
  (0 < z)%Z ->
  opts_stalledInterval s = Some (of_Z z) ->
  always (blocks_within z (A := unit)) (run fuel s).
Proof.
  intros Hz Hs. destruct (running s) eqn:Hr.
  - rewrite (run_running fuel s Hr). simpl. auto.
  - rewrite (run_not_running fuel s Hr).
    eapply always_catch_res with (P := blocks_within z (A := unit));
      [ apply within_run_body; assumption
      | intros s0 a H; exact H
      | intros s0 e H; unfold bind, modify, throw; simpl; auto
      | intros s0 c k H; exact H | exact I | exact I].
Qed.

(* ------------------------------------------------------------------ *)
(** *** The loop started by the constructor *)

(** X12.  With options that pass the check of the stalled interval, the
    constructor gives an instance that is not blocked and not closing, with
    [nextTimestamp] at [MAX_VALUE].  With [autorun: false] no loop is
    started.  Otherwise (also with [autorun] not given, or given as
    [undefined]) [run] is started on the instance: when the constructor
    returns, the instance is running and waits for the connection.  When the
    connection does not get ready, the error that [run] throws is handed to
    [emit] as an [error] event, with [running] reset by then, and nothing
    else is done: the promise started by the constructor settles as that
    call of [emit] does (lines 64-93, 126-131, 214-217). *)
Theorem constructor_autorun
        (fuel : nat) (name : string) (options : QueueSchedulerOptions) :
  truthy_opt (spread_over (of_Z 30000) (stalledInterval options)) = true ->
  exists this started,
    constructor fuel name options = instance this started
    /\ (isRunning this = false /\ isBlocked this = false /\ closing this = None
        /\ nextTimestamp this = MAX_VALUE /\ emitted this = []
        /\ keys_delay this = toKey name "delay")
    /\ (autorun options = given false -> started = None)
    /\ (autorun options <> given false ->
        exists p,
          started = Some p
          /\ pending p = Some waitUntilReady
          /\ state_of p = Some (set_running true this)
          /\ forall err s',
              resume p (rejected err) s'
              = emit (error_event err) (set_running false s')).
Proof.
  intros Hs. unfold constructor. cbn [opts_stalledInterval]. rewrite Hs.
  cbn [negb].
  assert (Hrun : forall this,
             running this = false ->
             let p := try_catch (run fuel)
                                (fun error => emit (error_event error)) this in
             pending p = Some waitUntilReady
             /\ state_of p = Some (set_running true this)
             /\ forall err s',
                 resume p (rejected err) s'
                 = emit (error_event err) (set_running false s')).
  { intros this Hr p. split; [|split].
    - unfold p, try_catch. rewrite (run_not_running fuel this Hr). reflexivity.
    - unfold p, try_catch. rewrite (run_not_running fuel this Hr). reflexivity.
    - intros err s'. unfold p, try_catch.
      rewrite (run_not_running fuel this Hr). reflexivity. }
  destruct (autorun options) as [| |[|]] eqn:Ha; cbn [destructured_default];
    eexists _, _; (split; [reflexivity|]);
    (split; [repeat split|]); (split; [try discriminate; try reflexivity|]);
    intros Hn; try congruence;
    eexists; (split; [reflexivity|]); apply Hrun; reflexivity.
Qed.

(* ------------------------------------------------------------------ *)
(** *** Shutdown of the loop *)

Lemma close_is_set (s : QueueScheduler) : is_set (closing (fst (close s))) = true.
Proof. rewrite close_sets_closing. reflexivity. Qed.

Lemma interfere_is_set (c : call) (s s' : QueueScheduler) :
  interfere c s s' -> is_set (closing s) = true -> is_set (closing s') = true.
Proof. intros [c' s0 | c' s0 _] H; [exact H | apply close_is_set]. Qed.

Lemma ends_within_mono {A : Type} (p : res A) :
  forall n m, (n <= m)%nat -> ends_within n p -> ends_within m p.
Proof.
  induction p as [s a | s e | s c k IH | |]; intros n m Hle; simpl; auto.
  intros [Hc H]. split; [exact Hc|].
  destruct n as [|n]; [destruct H|]. destruct m as [|m]; [lia|].
  intros a s' Hi. apply (IH a s' n m); [lia | auto].
Qed.

Lemma ends_within_bind {A B : Type} (f : A -> M B) (t : nat) :
  (forall a s, is_set (closing s) = true -> ends_within t (f a s)) ->
  forall (p : res A) (n : nat),
    ends_within n p -> ends_within (n + t) (bind_res p f).
Proof.
  intros Hf. induction p as [s a | s e | s c k IH | |]; intros n; simpl; auto.
  - intros Hs. apply ends_within_mono with (n := t); [lia | apply Hf, Hs].
  - intros [Hc H]. split; [exact Hc|].
    destruct n as [|n]; [destruct H|]. simpl.
    intros a s' Hi. apply IH, H, Hi.
Qed.

Lemma stops_after_close_mono {A : Type} (n m : nat) (p : res A) :
  (n <= m)%nat -> stops_after_close n p -> stops_after_close m p.
Proof.
  intros Hle. destruct p as [s a | s e | s c k | |]; simpl; auto.
  intros H Hc a. eapply ends_within_mono; [exact Hle | apply H, Hc].
Qed.

Lemma stops_with_tail {A B : Type} (f : A -> M B) (b t n : nat) (p : res A) :
  (b + t <= n)%nat ->
  (forall a s, is_set (closing s) = true -> ends_within t (f a s)) ->
  always (stops_after_close b (A := A)) p ->
  always (stops_after_close_with n f) p.
Proof.
  intros Hle Hf.
  induction p as [s a | s e | s c k IH | |]; simpl; intros [H0 H1]; split; auto.
  intros Hc a. apply ends_within_mono with (n := (b + t)%nat); [exact Hle|].
  apply ends_within_bind; [exact Hf | apply H0, Hc].
Qed.

Lemma winds_down_bind {A B : Type} (b1 t1 b2 t2 b t : nat) (m : M A) (f : A -> M B) :
  winds_down b1 t1 m -> (forall a, winds_down b2 t2 (f a)) ->
  (b1 + t2 <= b)%nat -> (b2 <= b)%nat -> (t1 + t2 <= t)%nat ->
  winds_down b t (bind m f).
Proof.
  intros [Hm1 Hm2] Hf H1 H2 H3. split; intros s.
  - unfold bind. eapply always_bind_res with (1 := Hm1 s); try exact I.
    + intros s1 a _. eapply always_mono; [|apply (Hf a)].
      intros q. apply stops_after_close_mono, H2.
    + intros s1 e _. exact I.
    + intros s1 c k H Hc a. simpl in H.
      apply ends_within_mono with (n := (b1 + t2)%nat); [exact H1|].
      apply ends_within_bind; [intros a0 s0; apply (Hf a0) | apply H, Hc].
  - intros Hs. unfold bind.
    apply ends_within_mono with (n := (t1 + t2)%nat); [exact H3|].
    apply ends_within_bind; [intros a0 s0; apply (Hf a0) | apply Hm2, Hs].
Qed.

Local Arguments close : simpl never.

Local Hint Resolve close_is_set interfere_is_set : core.

Lemma winds_down_ret {A : Type} (a : A) : winds_down 0 0 (ret a).
Proof. split; intros s; simpl; auto. Qed.

Lemma winds_down_throw {A : Type} (e : Error) : winds_down 0 0 (throw (A := A) e).
Proof. split; intros s; simpl; auto. Qed.

Lemma winds_down_gets {A : Type} (f : QueueScheduler -> A) : winds_down 0 0 (gets f).
Proof. split; intros s; simpl; auto. Qed.

Lemma winds_down_modify (g : QueueScheduler -> QueueScheduler) :
  (forall s, closing (g s) = closing s) -> winds_down 0 0 (modify g).
Proof. intros Hg. split; intros s; simpl; auto. rewrite Hg. auto. Qed.

Lemma winds_down_now : winds_down 0 1 now.
Proof.
  split; intros s; simpl.
  - split; [intros Hc; contradiction Hc; reflexivity|].
    intros a s' _. destruct a; simpl; auto.
  - intros Hs. split; [reflexivity|].
    intros a s' Hi. destruct a; simpl; eauto.
Qed.

Lemma winds_down_destructure {A B : Type} (v : option (A * B)) :
  winds_down 0 0 (destructure v).
Proof. destruct v; [apply winds_down_ret | apply winds_down_throw]. Qed.

Lemma winds_down_updateDelaySet (timestamp : number) :
  winds_down 0 0 (updateDelaySet timestamp).
Proof.
  split; intros s; unfold updateDelaySet, checkConnectionError, bind, gets; simpl.
  - destruct (closing s); simpl; [auto|].
    split; [intros _ a; destruct a; simpl; auto|].
    intros a s' _. destruct a; simpl; auto.
  - intros Hs. destruct (closing s) eqn:Hc; [|discriminate].
    simpl. rewrite Hc. reflexivity.
Qed.


Lemma emit_all_closing (evs : list Event) (s : QueueScheduler) :
  closing (emit_all evs s) = closing s.
Proof. rewrite emit_all_fields. reflexivity. Qed.

Lemma winds_down_moveStalledJobsToWait : winds_down 0 0 moveStalledJobsToWait.
Proof.
  split; intros s; unfold moveStalledJobsToWait, bind, gets; simpl.
  - destruct (closing s); simpl; [auto|].
    split.
    + intros _ a. destruct a; simpl; auto.
      unfold bind. rewrite forEach_emit. simpl. rewrite forEach_emit. simpl.
      rewrite !emit_all_closing. auto.
    + intros a s' _. destruct a; simpl; auto.
      unfold bind. rewrite forEach_emit. simpl. rewrite forEach_emit. simpl. auto.
  - intros Hs. destruct (closing s) eqn:Hc; [|discriminate].
    simpl. rewrite Hc. reflexivity.
Qed.

Lemma winds_down_readDelayedData
      (key : string) (streamLastId : cursor) (blockTime : number) :
  winds_down 1 0 (readDelayedData key streamLastId blockTime).
Proof.
  split; intros s; unfold readDelayedData, checkConnectionError, bind, gets; simpl.
  - destruct (closing s); simpl; [auto|].
    destruct (truthy blockTime); simpl.
    + split.
      * intros _ a. destruct a; simpl; auto.
        destruct (isNotConnectionError err); simpl; auto.
        split; [reflexivity|].
        intros a s' Hi. apply interfere_is_set in Hi; [|apply close_is_set].
        destruct a; simpl; auto.
      * intros a s' _. destruct a; simpl; auto.
        destruct (isNotConnectionError err); simpl; auto.
        split; [intros _ a; destruct a; simpl; auto|].
        intros a s2 _. destruct a; simpl; auto.
    + split.
      * intros _ a. destruct a; simpl; auto.
      * intros a s' _. destruct a; simpl; auto.
  - intros Hs. destruct (closing s) eqn:Hc; [|discriminate].
    simpl. rewrite Hc. reflexivity.
Qed.

Lemma winds_down_applyData
      (key : string) (data : option StreamReadRaw) (streamLastId : cursor) :
  winds_down 0 0 (applyData key data streamLastId).
Proof.
  unfold applyData. destruct data as [[|stream data]|]; try apply winds_down_ret.
  split; intros s; unfold checkConnectionError, bind;
    destruct (processEvents_spec (snd stream) streamLastId s) as (n & -> & _);
    unfold gets; simpl.
  - destruct (closing s); simpl; [auto|].
    split; [intros _ a; destruct a; simpl; auto|].
    intros a s' _. destruct a; simpl; auto.
  - intros Hs. destruct (closing s) eqn:Hc; [|discriminate].
    simpl. rewrite Hc. reflexivity.
Qed.

Lemma winds_down_dueTimePromotion (streamLastId : cursor) :
  winds_down 0 1 (dueTimePromotion streamLastId).
Proof.
  unfold dueTimePromotion.
  apply winds_down_bind with (b1 := 0%nat) (t1 := 1%nat) (b2 := 0%nat) (t2 := 0%nat);
    [apply winds_down_now | intros t | lia ..].
  apply winds_down_bind with (b1 := 0%nat) (t1 := 0%nat) (b2 := 0%nat) (t2 := 0%nat);
    [apply winds_down_gets | intros n | lia ..].
  cbv zeta. destruct (leb (sub n t) (of_Z 0)); [|apply winds_down_ret].
  apply winds_down_bind with (b1 := 0%nat) (t1 := 0%nat) (b2 := 0%nat) (t2 := 0%nat);
    [apply winds_down_updateDelaySet | intros result | lia ..].
  apply winds_down_bind with (b1 := 0%nat) (t1 := 0%nat) (b2 := 0%nat) (t2 := 0%nat);
    [apply winds_down_destructure | intros [nextTimestamp' id] | lia ..].
  destruct (truthy_opt nextTimestamp');
    (apply winds_down_bind
       with (b1 := 0%nat) (t1 := 0%nat) (b2 := 0%nat) (t2 := 0%nat);
     [apply winds_down_modify; reflexivity | intros _; apply winds_down_ret | lia ..]).
Qed.

Lemma winds_down_readAndApply (key : string) (streamLastId : cursor) :
  winds_down 1 1 (readAndApply key streamLastId).
Proof.
  unfold readAndApply, checkConnectionError.
  apply winds_down_bind with (b1 := 0%nat) (t1 := 0%nat) (b2 := 1%nat) (t2 := 1%nat);
    [apply winds_down_moveStalledJobsToWait | intros _ | lia ..].
  apply winds_down_bind with (b1 := 0%nat) (t1 := 0%nat) (b2 := 1%nat) (t2 := 1%nat);
    [apply winds_down_gets | intros n | lia ..].
  apply winds_down_bind with (b1 := 0%nat) (t1 := 1%nat) (b2 := 1%nat) (t2 := 0%nat);
    [apply winds_down_now | intros t | lia ..].
  apply winds_down_bind with (b1 := 0%nat) (t1 := 0%nat) (b2 := 1%nat) (t2 := 0%nat);
    [apply winds_down_gets | intros stalledInterval | lia ..].
  cbv zeta.
  apply winds_down_bind with (b1 := 1%nat) (t1 := 0%nat) (b2 := 0%nat) (t2 := 0%nat);
    [apply winds_down_readDelayedData | intros data | lia ..].
  apply winds_down_applyData.
Qed.

Lemma winds_down_iteration (key : string) (streamLastId : cursor) :
  winds_down 2 2 (iteration key streamLastId).
Proof.
  unfold iteration.
  apply winds_down_bind with (b1 := 1%nat) (t1 := 1%nat) (b2 := 0%nat) (t2 := 1%nat);
    [apply winds_down_readAndApply | intros c | lia ..].
  apply winds_down_dueTimePromotion.
Qed.

(** The test of [while (!this.closing)] with a shutdown pending. *)
Lemma loop_closing (fuel : nat) (key : string) (streamLastId : cursor)
      (s : QueueScheduler) :
  is_set (closing s) = true -> loop (S fuel) key streamLastId s = Ret s tt.
Proof.
  intros Hs. simpl. unfold bind, gets. simpl.
  destruct (closing s); [reflexivity | discriminate].
Qed.

(** X13.  A call of [close()] stops the loop.  If [close()] is called while
    an iteration waits for a call (the stall sweep, a read, the back-off
    delay, the trim or the promotion operation), then, whatever that call
    and the later ones are answered with, the rest of the iteration and the
    test of the loop that follows it return or throw after at most two more
    calls, none of them a remote operation: this iteration is the last one.
    The same holds of an iteration that is started with the shutdown pending
    (lines 155-212, and the guards of lines 192, 233, 267 and 278). *)
Theorem close_stops_the_loop
        (fuel : nat) (key : string) (streamLastId : cursor) (s : QueueScheduler) :
  always (stops_after_close_with 2 (loop (S fuel) key)) (iteration key streamLastId s)
  /\ (is_set (closing s) = true ->
      ends_within 2 (bind_res (iteration key streamLastId s) (loop (S fuel) key))).
Proof.
  assert (Hl : forall a s0,
             is_set (closing s0) = true -> ends_within 0 (loop (S fuel) key a s0)).
  { intros a s0 Hs0. rewrite loop_closing by exact Hs0. exact Hs0. }
  destruct (winds_down_iteration key streamLastId) as [H1 H2]. split.
  - apply stops_with_tail with (b := 2%nat) (t := 0%nat); [lia | exact Hl | apply H1].
  - intros Hs. change 2%nat with (2 + 0)%nat.
    apply ends_within_bind; [exact Hl | apply H2, Hs].
Qed.


End Further.

(* ================================================================== *)
(** ** The properties on a scheduler *)

(** The properties above, on [sample_scheduler] with [sample_imports]. *)

Local Open Scope string_scope.

(** C2 on a batch of two entries: the cursor ends on the second. *)
Lemma cursor_ends_on_last_entry_witness :
  (0 < List.length [("5-0", ["nextTimestamp"; "1000"]); ("6-0", ["nextTimestamp"; "900"])])%nat
  /\ exists s',
      processEvents (imports := sample_imports)
        [("5-0", ["nextTimestamp"; "1000"]); ("6-0", ["nextTimestamp"; "900"])]%string
        (Some "0-0"%string) sample_scheduler
      = Ret s' (Some "6-0"%string).
Proof.
  split; [simpl; lia|].
  destruct (@cursor_ends_on_last_entry sample_imports
              [("5-0", ["nextTimestamp"; "1000"]); ("6-0", ["nextTimestamp"; "900"])]%string
              (Some "0-0"%string) sample_scheduler (""%string, []))
    as (s' & H & _); [simpl; lia|].
  exists s'. exact H.
Defined.

(** C3 with a job due in 500 ms and a stalled interval of 30 s: the
    iteration blocks for 500 ms. *)
Lemma blockTime_within_stalledInterval_witness :
  leb (of_Z 0)
      (blockTime (Some (of_Z 30000)) (of_Z 1700000000500) (of_Z 1700000000000)) = true
  /\ leb (blockTime (Some (of_Z 30000)) (of_Z 1700000000500) (of_Z 1700000000000))
         (of_Z 30000) = true
  /\ pending (resume_same
                (resume_same
                   (readAndApply (imports := sample_imports) "bull:queue:delay"
                      (Some "5-0")
                      (set_nextTimestamp (of_Z 1700000000500) sample_scheduler))
                   (resolved_stalled [] []))
                (resolved_number (of_Z 1700000000000)))
     = Some (xread_BLOCK (of_Z 500) "bull:queue:delay" (Some "5-0")).
Proof.
  destruct (@blockTime_within_stalledInterval sample_imports 30000
              (of_Z 1700000000500) (of_Z 1700000000000))
    as (_ & H0 & H1 & H2); [lia | reflexivity | reflexivity |].
  split; [exact H0|]. split; [exact H1|].
  apply (H2 "bull:queue:delay" (Some "5-0")
            (set_nextTimestamp (of_Z 1700000000500) sample_scheduler) [] []);
    reflexivity.
Defined.

(** C5 on the result [(["j1"], ["j2"])]: a [failed] event for [j1], then a
    [stalled] event for [j2]. *)
Lemma stall_sweep_emits_failed_then_stalled_witness :
  exists s'',
    resume (moveStalledJobsToWait sample_scheduler)
           (resolved_stalled ["j1"%string] ["j2"%string]) sample_scheduler
    = Ret s'' tt
    /\ emitted s'' =
         [failed_event "j1" (mkError "job stalled more than allowable limit") "active";
          stalled_event "j2" "active"].
Proof.
  destruct (@stall_sweep_emits_failed_then_stalled sample_scheduler
              ["j1"%string] ["j2"%string] eq_refl) as [_ H].
  exact (H sample_scheduler).
Defined.

(** C6 with a block time of 30 s: the blocking read is issued. *)
Lemma blocking_read_swallows_connection_errors_witness :
  pending (readDelayedData (imports := sample_imports) "bull:queue:delay"
             (Some "0-0"%string) (of_Z 30000) sample_scheduler)
  = Some (xread_BLOCK (of_Z 30000) "bull:queue:delay" (Some "0-0"%string)).
Proof.
  apply (@blocking_read_swallows_connection_errors sample_imports "bull:queue:delay"
           (Some "0-0"%string) (of_Z 30000) sample_scheduler); reflexivity.
Defined.

(** C7 with [stalledInterval: 0]. *)
Lemma constructor_rejects_zero_stalledInterval_witness :
  constructor (imports := sample_imports) 1 "queue"
    {| autorun := absent; maxStalledCount := absent; stalledInterval := given (of_Z 0) |}
  = construction_throws (mkError "Stalled interval cannot be zero or undefined").
Proof.
  apply (@constructor_rejects_zero_stalledInterval sample_imports 1 "queue"
           {| autorun := absent; maxStalledCount := absent;
              stalledInterval := given (of_Z 0) |}).
  left. reflexivity.
Defined.

(** C8 on a scheduler that is running. *)
Lemma run_while_running_throws_witness :
  run (imports := sample_imports) 1 (set_running true sample_scheduler)
  = Throw (set_running true sample_scheduler)
          (mkError "Queue Scheduler is already running.").
Proof.
  apply (@run_while_running_throws sample_imports 1 (set_running true sample_scheduler)).
  reflexivity.
Defined.


(** C1, as stated, fails while a shutdown is pending: [nextTimestamp] is
    reset to [MAX_VALUE] although the promotion operation returns nothing,
    as it is not called.  An iteration starts with [nextTimestamp = 1000];
    [close()] is called during the stall sweep, which finds no job; the clock
    reads 6000 and, a shutdown being pending, nothing is read from the
    stream; the clock reads 6000 again, so that a job is due, and the
    iteration returns with [nextTimestamp] raised from 1000 to [MAX_VALUE].
    The calls that the iteration has waited for are the sweep and the clock,
    twice: the promotion operation is not among them. *)
Lemma nextTimestamp_reset_without_promotion :
  let key := "bull:queue:delay"%string in
  let streamLastId := Some "5-0"%string in
  let s0 := set_nextTimestamp (of_Z 1000) sample_scheduler in
  let p0 := iteration (imports := sample_imports) key streamLastId s0 in
  let p1 := resume p0 (resolved_stalled [] []) (fst (close s0)) in
  let p2 := resume_same p1 (resolved_number (of_Z 6000)) in
  let p3 := resume_same p2 (resolved_number (of_Z 6000)) in
  pending p0 = Some Scripts_moveStalledJobsToWait
  /\ nextTimestamp (fst (close s0)) = of_Z 1000
  /\ pending p1 = Some Date_now
  /\ pending p2 = Some Date_now
  /\ pending p3 = None
  /\ exists s3,
      p3 = Ret s3 streamLastId
      /\ nextTimestamp s3 = MAX_VALUE
      /\ ltb (of_Z 1000) (nextTimestamp s3) = true.
Proof.
  cbv zeta. repeat split; try reflexivity.
  exists (set_nextTimestamp MAX_VALUE
            (fst (close (set_nextTimestamp (of_Z 1000) sample_scheduler)))).
  split; [reflexivity|]. split; [reflexivity|].
  vm_compute. reflexivity.
Qed.

(** C4, as stated, fails while a shutdown is pending.  An iteration starts
    with [nextTimestamp = 1000]; at time 900 it issues the blocking read for
    100 ms; [close()] is called during the read, which is then rejected with
    a connection error; after the back-off delay the clock reads 6000, so
    that [nextTimestamp - now <= 0], yet the promotion operation is not
    called: the iteration returns with [nextTimestamp] reset to
    [MAX_VALUE]. *)
Lemma promotion_not_called_while_closing :
  let key := "bull:queue:delay"%string in
  let streamLastId := Some "5-0"%string in
  let s0 := set_nextTimestamp (of_Z 1000) sample_scheduler in
  let p1 := resume_same (iteration (imports := sample_imports) key streamLastId s0)
                        (resolved_stalled [] []) in
  let p2 := resume_same p1 (resolved_number (of_Z 900)) in
  let p3 := resume p2 (rejected (mkError "Connection is closed."))
                   (fst (close (set_isBlocked true s0))) in
  let p4 := resume_same p3 resolved in
  let p5 := resume_same p4 (resolved_number (of_Z 6000)) in
  pending p2 = Some (xread_BLOCK (of_Z 100) key streamLastId)
  /\ state_of p2 = Some (set_isBlocked true s0)
  /\ pending p3 = Some (delay (of_Z 5000))
  /\ pending p4 = Some Date_now
  /\ (exists s4, state_of p4 = Some s4
                 /\ leb (sub (nextTimestamp s4) (of_Z 6000)) (of_Z 0) = true)
  /\ pending p5 = None
  /\ exists s5, p5 = Ret s5 streamLastId /\ nextTimestamp s5 = MAX_VALUE.
Proof.
  cbv zeta. repeat split; try reflexivity.
  - vm_compute. eexists. split; reflexivity.
  - vm_compute. eexists. split; reflexivity.
Qed.

(** C7, as stated, fails for an option that is not set: the default applies,
    the constructor returns an instance with a stalled interval of 30000 and,
    [autorun] being on by default, with the loop started. *)
Lemma constructor_defaults_unset_stalledInterval :
  exists this p s,
    constructor (imports := sample_imports) 1 "queue"
      {| autorun := absent; maxStalledCount := absent; stalledInterval := absent |}
    = instance this (Some p)
    /\ opts_stalledInterval this = Some (of_Z 30000)
    /\ pending p = Some waitUntilReady
    /\ state_of p = Some s
    /\ running s = true.
Proof.
  eexists. eexists. eexists.
  split; [reflexivity|]. split; [reflexivity|]. split; [reflexivity|].
  split; reflexivity.
Qed.


(* ------------------------------------------------------------------ *)
(** *** Block times and batches *)

(** A job that is overdue: no blocking. *)
Example blockTime_overdue :
  blockTime (Some (of_Z 30000)) (of_Z 1000) (of_Z 2000) = of_Z 0.
Proof. reflexivity. Qed.

(** No delayed job known: the whole stalled interval. *)
Example blockTime_no_job :
  blockTime (Some (of_Z 30000)) MAX_VALUE (of_Z 1700000000000) = of_Z 30000.
Proof. vm_compute. reflexivity. Qed.

(** A batch with an entry that has no [nextTimestamp] field: the entry moves
    the cursor and leaves [nextTimestamp] alone. *)
Example batch_with_unparsed_entry :
  processEvents (imports := sample_imports)
    [("5-0", ["nextTimestamp"; "1000"]); ("6-0", ["delay"; "10"]);
     ("7-0", ["nextTimestamp"; "900"; "delay"; "5"]); ("8-0", ["nextTimestamp"; "950"])]
    (Some "0-0") sample_scheduler
  = Ret (set_nextTimestamp (of_Z 900) sample_scheduler) (Some "8-0").
Proof. reflexivity. Qed.

(* ------------------------------------------------------------------ *)
(** *** Two runs of the loop *)

(** The promotion operation reports a job due in 500 ms at position [5-0]:
    the loop blocks on the stream from there for 500 ms; the read times out,
    the clock shows the job due, and the promotion operation is called again
    with that time. *)
Example promotion_again_after_timeout :
  let p0 := run (imports := sample_imports) 2 sample_scheduler in
  let p1 := resume_same p0 resolved in
  let p2 := resume_same p1 resolved in
  let p3 := resume_same p2 (resolved_number (of_Z 1700000000000)) in
  let p4 := resume_same p3 (resolved_delaySet
                              (Some (Some (of_Z 1700000000500), Some "5-0"))) in
  let p5 := resume_same p4 (resolved_stalled [] []) in
  let p6 := resume_same p5 (resolved_number (of_Z 1700000000000)) in
  let p7 := resume_same p6 (resolved_stream None) in
  let p8 := resume_same p7 (resolved_number (of_Z 1700000000500)) in
  pending p0 = Some waitUntilReady
  /\ pending p1 = Some (client_setname "bull:cXVldWU=:qs")
  /\ pending p2 = Some Date_now
  /\ pending p3 = Some (Scripts_updateDelaySet (of_Z 1700000000000))
  /\ pending p4 = Some Scripts_moveStalledJobsToWait
  /\ pending p5 = Some Date_now
  /\ pending p6 = Some (xread_BLOCK (of_Z 500) "bull:queue:delay" (Some "5-0"))
  /\ pending p7 = Some Date_now
  /\ pending p8 = Some (Scripts_updateDelaySet (of_Z 1700000000500)).
Proof. cbv zeta. repeat split; reflexivity. Qed.

(** The promotion operation reports no delayed job: the loop blocks on the
    stream for the whole stalled interval, not for zero. *)
Example idle_loop_blocks_for_stalledInterval :
  let p0 := run (imports := sample_imports) 2 sample_scheduler in
  let p1 := resume_same p0 resolved in
  let p2 := resume_same p1 resolved in
  let p3 := resume_same p2 (resolved_number (of_Z 1700000000000)) in
  let p4 := resume_same p3 (resolved_delaySet (Some (None, None))) in
  let p5 := resume_same p4 (resolved_stalled [] []) in
  let p6 := resume_same p5 (resolved_number (of_Z 1700000000000)) in
  pending p6 = Some (xread_BLOCK (of_Z 30000) "bull:queue:delay" (Some "0-0")).
Proof. reflexivity. Qed.

(* ------------------------------------------------------------------ *)
(** *** The further properties on a scheduler *)

(** X2 on a scheduler that is not running. *)
Lemma isRunning_while_run_in_flight_witness :
  always (running_until_exit (A := unit))
         (run (imports := sample_imports) 3 sample_scheduler).
Proof.
  apply (@isRunning_while_run_in_flight sample_imports 3 sample_scheduler).
  reflexivity.
Defined.

(** X4 with a server that does not know the [client] command: [run] goes on
    to read the clock. *)
Lemma run_tolerates_unsupported_setname_witness :
  pending (resume (resume (run (imports := sample_imports) 1 sample_scheduler)
                          resolved (set_running true sample_scheduler))
                  (rejected (mkError "ERR unknown command 'client'"))
                  (set_running true sample_scheduler))
  = Some Date_now.
Proof.
  destruct (@run_tolerates_unsupported_setname sample_imports 1 sample_scheduler)
    as (_ & _ & _ & _ & H); [reflexivity|].
  apply (H (set_running true sample_scheduler)
           (mkError "ERR unknown command 'client'")
           (set_running true sample_scheduler)).
  reflexivity.
Defined.

(** X5 with a job due in 500 ms at position [5-0]. *)
Lemma run_starts_from_promoted_cursor_witness :
  let p3 := resume_same
              (resume_same
                 (resume_same (run (imports := sample_imports) 1 sample_scheduler)
                              resolved)
                 resolved)
              (resolved_number (of_Z 1700000000000)) in
  let p4 := resume_same p3 (resolved_delaySet
                              (Some (Some (of_Z 1700000000500), Some "5-0"))) in
  let p6 := resume_same (resume_same p4 (resolved_stalled [] []))
                        (resolved_number (of_Z 1700000000000)) in
  pending p3 = Some (Scripts_updateDelaySet (of_Z 1700000000000))
  /\ pending p4 = Some Scripts_moveStalledJobsToWait
  /\ pending p6 = Some (xread_BLOCK (of_Z 500) "bull:queue:delay" (Some "5-0")).
Proof.
  exact (@run_starts_from_promoted_cursor sample_imports 0 sample_scheduler
           (of_Z 1700000000000) (Some (of_Z 1700000000500)) (Some "5-0") [] []
           (of_Z 1700000000000) eq_refl eq_refl).
Defined.

(** X6 on a scheduler on which [close()] has been called. *)
Lemma run_on_closing_scheduler_witness :
  resume_same
    (resume_same
       (resume_same (run (imports := sample_imports) 1 (fst (close sample_scheduler)))
                    resolved)
       resolved)
    (resolved_number (of_Z 1700000000000))
  = Ret (fst (close sample_scheduler)) tt.
Proof.
  destruct (@run_on_closing_scheduler sample_imports 0 (fst (close sample_scheduler))
              (snd (close sample_scheduler)) (of_Z 1700000000000))
    as (_ & _ & _ & H); [reflexivity | reflexivity |].
  exact H.
Defined.

(** X9 with a job due in 500 ms and a stalled interval of 30 s. *)
Lemma blockTime_on_milliseconds_witness :
  blockTime (Some (of_Z 30000)) (of_Z 1700000000500) (of_Z 1700000000000) = of_Z 500.
Proof.
  destruct (@blockTime_on_milliseconds 30000 1700000000500 1700000000000) as [H _];
    [lia|].
  exact H.
Defined.


(** X11 with the default stalled interval of 30 s. *)
Lemma run_blocks_within_stalledInterval_witness :
  always (blocks_within 30000 (A := unit))
         (run (imports := sample_imports) 3 sample_scheduler).
Proof.
  apply (@run_blocks_within_stalledInterval sample_imports 30000 3 sample_scheduler);
    [lia | reflexivity].
Defined.

(** X12 with the default options: the loop is started, and the instance is
    running when the constructor returns. *)
Lemma constructor_autorun_witness :
  exists this p,
    constructor (imports := sample_imports) 3 "queue"
      {| autorun := absent; maxStalledCount := absent; stalledInterval := absent |}
    = instance this (Some p)
    /\ pending p = Some waitUntilReady
    /\ state_of p = Some (set_running true this).
Proof.
  destruct (@constructor_autorun sample_imports 3 "queue"
              {| autorun := absent; maxStalledCount := absent;
                 stalledInterval := absent |})
    as (this & started & Hc & _ & _ & Hp); [reflexivity|].
  destruct Hp as (p & Hs & Hw & Hst & _); [simpl; congruence|].
  exists this, p. rewrite Hc, Hs. repeat split; assumption.
Defined.
